(** * b2luigi.core.utils: output registry, path derivation and filtering

    A shallow embedding of [src/b2luigi/core/utils.py] and the properties
    of its parameter combinator ([product_dict], [fill_kwargs_with_lists]),
    registry builder ([task_iterator], [get_all_output_files_in_tree]),
    filter ([filter_from_params]) and path deriver
    ([get_serialized_parameters], [create_output_file_name]).

    The code is read under CPython 3.6 - 3.9, where [collections.Iterable]
    is [collections.abc.Iterable] and dictionaries keep insertion order. *)

From Stdlib Require Import ZArith Ascii.
From stdpp Require Import base option list strings gmap.

(** ** Python values, exceptions and dictionaries *)

Module Py.

(** Exceptions: [TypeError], raised on iterating or hashing a value that
    does not support it, and [KeyError], which subscripting a plain [dict]
    with a missing key raises. *)
Inductive exn : Type :=
| TypeError
| KeyError.

Inductive result (A : Type) : Type :=
| Ok (a : A)
| Raise (e : exn).
Global Arguments Ok {A} a.
Global Arguments Raise {A} e.

Definition bind {A B} (m : result A) (k : A → result B) : result B :=
  match m with
  | Ok a => k a
  | Raise e => Raise e
  end.

(** [for x in xs: acc = body(acc, x)], stopping at the first exception. *)
Fixpoint for_each {A S} (xs : list A) (body : S → A → result S) (acc : S)
  : result S :=
  match xs with
  | [] => Ok acc
  | x :: xs' => bind (body acc x) (for_each xs' body)
  end.

(** Values a caller passes as keyword arguments: [None], integers,
    strings and lists of values. *)
Local Unset Elimination Schemes.
Inductive value : Type :=
| VNone
| VInt (n : Z)
| VStr (s : string)
| VList (xs : list value).
Local Set Elimination Schemes.

(** [a == b]: structural on these types, values of different types are
    unequal. *)
Fixpoint eqb (a b : value) {struct a} : bool :=
  match a, b with
  | VNone, VNone => true
  | VInt m, VInt n => Z.eqb m n
  | VStr s, VStr t => String.eqb s t
  | VList xs, VList ys =>
      (fix all2 (xs ys : list value) {struct xs} : bool :=
         match xs, ys with
         | [], [] => true
         | x :: xs', y :: ys' => eqb x y && all2 xs' ys'
         | _, _ => false
         end) xs ys
  | _, _ => false
  end.

(** [a != b] *)
Definition neb (a b : value) : bool := negb (eqb a b).

(** [value is None] *)
Definition is_none (v : value) : bool :=
  match v with
  | VNone => true
  | _ => false
  end.

(** [isinstance(value, collections.Iterable)] *)
Definition is_iterable (v : value) : bool :=
  match v with
  | VStr _ | VList _ => true
  | VNone | VInt _ => false
  end.

(** The characters of a string, each as a one-character string. *)
Fixpoint chars (s : string) : list value :=
  match s with
  | EmptyString => []
  | String c s' => VStr (String c EmptyString) :: chars s'
  end.

(** [tuple(v)]: the items produced by iterating [v]. *)
Definition iter (v : value) : result (list value) :=
  match v with
  | VStr s => Ok (chars s)
  | VList xs => Ok xs
  | VNone | VInt _ => Raise TypeError
  end.

(** [[tuple(v) for v in vs]] *)
Fixpoint iter_all (vs : list value) : result (list (list value)) :=
  match vs with
  | [] => Ok []
  | v :: vs' =>
      bind (iter v) (fun pool =>
      bind (iter_all vs') (fun pools => Ok (pool :: pools)))
  end.

(** A [dict] with string keys, in insertion order. *)
Abbreviation dict V := (list (string * V)).

(** [d.get(key)] *)
Fixpoint dict_get {V} (key : string) (d : dict V) : option V :=
  match d with
  | [] => None
  | (k, v) :: d' => if String.eqb k key then Some v else dict_get key d'
  end.

(** [d[key] = v]: an existing key keeps its position, a new one goes
    last. *)
Fixpoint dict_set {V} (key : string) (v : V) (d : dict V) : dict V :=
  match d with
  | [] => [(key, v)]
  | (k, w) :: d' =>
      if String.eqb k key then (k, v) :: d' else (k, w) :: dict_set key v d'
  end.

(** [dict(items)] *)
Definition dict_of_items {V} (items : list (string * V)) : dict V :=
  fold_left (fun d kv => dict_set kv.1 kv.2 d) items [].

(** [not d] *)
Definition dict_is_empty {V} (d : dict V) : bool :=
  match d with
  | [] => true
  | _ :: _ => false
  end.

End Py.

Import Py.

(** ** Library functions the module calls *)

Module itertools.

(** [itertools.product] over the pools: tuples in lexicographic order,
    the last pool varying fastest; no pool at all gives the single empty
    tuple. *)
Fixpoint product {A} (pools : list (list A)) : list (list A) :=
  match pools with
  | [] => [[]]
  | pool :: rest => flat_map (fun x => map (cons x) (product rest)) pool
  end.

End itertools.

Module posixpath.

Definition is_sep (c : ascii) : bool := Ascii.eqb c "/"%char.

(** [s.startswith('/')] *)
Definition startswith_sep (s : string) : bool :=
  match s with
  | String c _ => is_sep c
  | EmptyString => false
  end.

(** [s.endswith('/')] *)
Fixpoint endswith_sep (s : string) : bool :=
  match s with
  | EmptyString => false
  | String c EmptyString => is_sep c
  | String _ s' => endswith_sep s'
  end.

Definition is_empty (s : string) : bool :=
  match s with
  | EmptyString => true
  | String _ _ => false
  end.

(** One round of the loop of [posixpath.join]. *)
Definition join_step (path b : string) : string :=
  if startswith_sep b then b
  else if is_empty path || endswith_sep path then path +:+ b
  else path +:+ "/" +:+ b.

(** [os.path.join] on [a] and the further components [p]. *)
Definition join (a : string) (p : list string) : string :=
  fold_left join_step p a.

(** [s.split('/')] *)
Fixpoint split_sep (s : string) : list string :=
  match s with
  | EmptyString => [EmptyString]
  | String c s' =>
      if is_sep c then EmptyString :: split_sep s'
      else match split_sep s' with
           | [] => [String c EmptyString]
           | comp :: comps => String c comp :: comps
           end
  end.

(** ['/'.join(comps)] *)
Fixpoint join_sep (comps : list string) : string :=
  match comps with
  | [] => ""
  | [comp] => comp
  | comp :: comps' => comp +:+ "/" +:+ join_sep comps'
  end.

(** The number of leading slashes [posixpath.normpath] keeps. *)
Definition initial_slashes (path : string) : nat :=
  match path with
  | String c1 (String c2 (String c3 _)) =>
      if is_sep c1 then if is_sep c2 && negb (is_sep c3) then 2 else 1 else 0
  | String c1 (String c2 EmptyString) =>
      if is_sep c1 then if is_sep c2 then 2 else 1 else 0
  | String c1 EmptyString => if is_sep c1 then 1 else 0
  | EmptyString => 0
  end.

(** One round of the component loop of [posixpath.normpath]; [new_comps]
    is kept with its last element first. *)
Definition norm_step (slashes : nat) (new_comps : list string)
    (comp : string) : list string :=
  if String.eqb comp "" || String.eqb comp "." then new_comps
  else if negb (String.eqb comp "..")
          || (Nat.eqb slashes 0 && bool_decide (new_comps = []))
          || match new_comps with
             | last :: _ => String.eqb last ".."
             | [] => false
             end
  then comp :: new_comps
  else match new_comps with
       | _ :: popped => popped
       | [] => []
       end.

Fixpoint slashes_string (n : nat) : string :=
  match n with
  | O => ""
  | S n' => String "/"%char (slashes_string n')
  end.

(** [os.path.normpath(path)] *)
Definition normpath (path : string) : string :=
  if is_empty path then "."
  else
    let slashes := initial_slashes path in
    let comps := rev (fold_left (norm_step slashes) (split_sep path) []) in
    let path := slashes_string slashes +:+ join_sep comps in
    if is_empty path then "." else path.

(** [os.path.abspath(path)] in a process whose working directory is
    [cwd]. *)
Definition abspath (cwd path : string) : string :=
  normpath (if startswith_sep path then path else join cwd [path]).

(** [p[:p.rfind('/') + 1]] *)
Fixpoint dir_head (p : string) : string :=
  match p with
  | EmptyString => ""
  | String c p' =>
      match dir_head p' with
      | EmptyString => if is_sep c then "/" else ""
      | h => String c h
      end
  end.

(** [s.rstrip('/')] *)
Fixpoint rstrip_sep (s : string) : string :=
  match s with
  | EmptyString => ""
  | String c s' =>
      match rstrip_sep s' with
      | EmptyString => if is_sep c then "" else String c ""
      | r => String c r
      end
  end.

(** [os.path.dirname(p)] *)
Definition dirname (p : string) : string :=
  let head := dir_head p in
  if is_empty (rstrip_sep head) then head else rstrip_sep head.

(** [p[p.rfind('/') + 1:]], which is [os.path.basename(p)]. *)
Fixpoint basename (p : string) : string :=
  match p with
  | EmptyString => ""
  | String c p' =>
      match dir_head p' with
      | EmptyString => if is_sep c then p' else String c p'
      | _ => basename p'
      end
  end.

End posixpath.

(** ** Parameter combinator *)

(** [product_dict] on the keyword arguments [kwargs]: the dictionaries the
    generator yields, in order. *)
Definition product_dict (kwargs : dict value) : result (list (dict value)) :=
  let keys := kwargs.*1 in
  let vals := kwargs.*2 in
  bind (iter_all vals) (fun pools =>
  Ok (map (fun instance => dict_of_items (zip keys instance))
          (itertools.product pools))).

(** [fill_kwargs_with_lists] on the keyword arguments [kwargs]. *)
Definition fill_kwargs_with_lists (kwargs : dict value) : dict value :=
  fold_left
    (fun return_kwargs kv =>
       let key := kv.1 in
       let value := kv.2 in
       let value := if is_none value then VList [] else value in
       let value := if negb (is_iterable value) then VList [value] else value in
       dict_set key value return_kwargs)
    kwargs [].

(** What [fill_kwargs_with_lists] stores for one constraint value: the
    empty list for [None], a one-element list for a value that is not
    iterable, and an iterable as it is. *)
Definition listified (v : value) : value :=
  match v with
  | VNone => VList []
  | VInt _ => VList [v]
  | VStr _ | VList _ => v
  end.

(** Keyword arguments whose values are all lists. *)
Definition list_kwargs (kw : list (string * list value)) : dict value :=
  (λ kv, (kv.1, VList kv.2)) <$> kw.

(** ** Tasks *)

(** A [luigi.Parameter] descriptor: its [significant] flag and its
    [serialize] method. *)
Record LuigiParameter : Type := {
  significant : bool;
  serialize : value → string
}.

(** A task as this module uses it: [get_task_family()], [get_params()],
    the attribute holding each parameter's value, [deps()] and
    [get_output_file_names()] (which is [None] or a dictionary from output
    key to file name). *)
Unset Elimination Schemes.
Inductive Task : Type := mkTask {
  get_task_family : string;
  get_params : list (string * LuigiParameter);
  getattr : string → value;
  deps : list Task;
  get_output_file_names : option (dict string)
}.
Set Elimination Schemes.

(** [task_iterator(task)]: the tasks the generator yields, in order. *)
Fixpoint task_iterator (task : Task) : list Task :=
  match task with
  | mkTask _ _ _ ds _ => task :: flat_map task_iterator ds
  end.

(** ** Path deriver *)

(** [get_serialized_parameters(task)] *)
Definition get_serialized_parameters (task : Task) : dict string :=
  fold_left
    (fun serialized_parameters kp =>
       let key := kp.1 in
       let parameter := kp.2 in
       if negb (significant parameter) then serialized_parameters
       else
         let value := getattr task key in
         let value := serialize parameter value in
         dict_set key value serialized_parameters)
    (get_params task) [].

(** Modelled from the spec: [b2luigi.core.settings.get_setting], whose
    module is not among the sources. Section 6 of the specification has a
    process-wide key-value store with a [get(key, default)] accessor. *)
Definition get_setting (settings : gmap string string) (key dflt : string)
  : string :=
  default dflt (settings !! key).

(** A call the path deriver makes on the file system. *)
Inductive fs_call : Type :=
| Makedirs (path : string). (* os.makedirs(path, exist_ok=True) *)

(** [f"{key}={value}"] *)
Definition param_segment (kv : string * string) : string :=
  kv.1 +:+ "=" +:+ kv.2.

(** [create_output_file_name(task, base_filename, create_folder,
    result_path)]: the file-system calls made and the file name returned.
    The calls are recorded here; what [os.makedirs] does with them is
    [outcome], further down. *)
Definition create_output_file_name (settings : gmap string string)
    (task : Task) (base_filename : string) (create_folder : bool)
    (result_path : option string) : list fs_call * string :=
  let serialized_parameters := get_serialized_parameters task in
  let result_path :=
    match result_path with
    | Some p =>
        if posixpath.is_empty p then get_setting settings "result_path" "."
        else p
    | None => get_setting settings "result_path" "."
    end in
  let param_list := map param_segment serialized_parameters in
  let filename := posixpath.join result_path (param_list ++ [base_filename]) in
  (if create_folder then [Makedirs (posixpath.dirname filename)] else [],
   filename).

(** ** Output registry builder *)

(** The dictionary [dict(parameters=..., file_name=...)] stored per output. *)
Record OutputRecord : Type := {
  parameters : dict string;
  file_name : string
}.

Global Instance OutputRecord_eq_dec : EqDecision OutputRecord.
Proof. solve_decision. Defined.

(** Modelled from the spec: the method [task.get_serialized_parameters()]
    of the task class, which is not among the sources. Section 4.4 has the
    builder take the task's SerializedParameterSet, which is what
    [get_serialized_parameters] computes. *)
Definition task_get_serialized_parameters (task : Task) : dict string :=
  get_serialized_parameters task.

(** [all_output_files[file_key].append(record)] on a
    [collections.defaultdict(list)]. *)
Definition defaultdict_append
    (all_output_files : gmap string (list OutputRecord))
    (file_key : string) (record : OutputRecord)
  : gmap string (list OutputRecord) :=
  <[file_key := default [] (all_output_files !! file_key) ++ [record]]>
    all_output_files.

(** [all_output_files[key]] on a [collections.defaultdict(list)]: a missing
    key gives the default, an empty list. *)
Definition defaultdict_getitem
    (all_output_files : gmap string (list OutputRecord)) (key : string)
  : list OutputRecord :=
  default [] (all_output_files !! key).

(** The body of [get_all_output_files_in_tree] after the [if key:] branch:
    the whole registry of the tree under [root_module]. *)
Definition all_output_files_in_tree (cwd : string) (root_module : Task)
  : gmap string (list OutputRecord) :=
  fold_left
    (fun all_output_files task =>
       match get_output_file_names task with
       | None => all_output_files
       | Some output_dict =>
           if dict_is_empty output_dict then all_output_files
           else
             fold_left
               (fun all_output_files kv =>
                  defaultdict_append all_output_files kv.1
                    {| parameters := task_get_serialized_parameters task;
                       file_name := posixpath.abspath cwd kv.2 |})
               output_dict all_output_files
       end)
    (task_iterator root_module) ∅.

(** What [get_all_output_files_in_tree] returns: the registry, or one of its
    entries. *)
Inductive tree_output : Type :=
| Registry (all_output_files : gmap string (list OutputRecord))
| Entry (records : list OutputRecord).

(** [if key:] on [None] or a string. *)
Definition key_truthy (key : option string) : option string :=
  match key with
  | Some k => if posixpath.is_empty k then None else Some k
  | None => None
  end.

(** [get_all_output_files_in_tree(root_module, key)] in a process whose
    working directory is [cwd]. *)
Definition get_all_output_files_in_tree (cwd : string) (root_module : Task)
    (key : option string) : tree_output :=
  match key_truthy key with
  | Some k =>
      Entry (defaultdict_getitem (all_output_files_in_tree cwd root_module) k)
  | None => Registry (all_output_files_in_tree cwd root_module)
  end.

(** ** Filter engine *)

(** The inner loop of [filter_from_params] over [kwargs.items()]: the final
    value of [not_use]. The test [key in parameters and parameters[key] !=
    value] is the case analysis on [parameters.get(key)]. *)
Fixpoint not_use (items : list (string * value)) (parameters : dict string)
  : bool :=
  match items with
  | [] => false
  | (key, value) :: rest =>
      match dict_get key parameters with
      | Some p => if neb (VStr p) value then true else not_use rest parameters
      | None => not_use rest parameters
      end
  end.

(** [hash(output_dict)]: the records are [dict] objects, and a [dict] has no
    hash. *)
Definition hash_record (output_dict : OutputRecord) : result Z :=
  Raise TypeError.

(** [file_names.add(output_dict)]; the set is kept as the list of its
    distinct members. *)
Definition set_add (output_dict : OutputRecord) (file_names : list OutputRecord)
  : result (list OutputRecord) :=
  bind (hash_record output_dict) (fun _ =>
  Ok (if bool_decide (output_dict ∈ file_names) then file_names
      else file_names ++ [output_dict])).

(** The two nested loops of [filter_from_params]. *)
Definition filter_loop (assignments : list (dict value))
    (output_files : list OutputRecord) : result (list OutputRecord) :=
  for_each assignments
    (fun file_names kwargs =>
       for_each output_files
         (fun file_names output_dict =>
            let parameters := parameters output_dict in
            if not_use kwargs parameters then Ok file_names
            else set_add output_dict file_names)
         file_names)
    [].

(** [filter_from_params] on [output_files] and the keyword arguments
    [kwargs]. The list returned for [list(file_names)] stands for the set in
    some order; Python does not fix the order in which a set is listed. *)
Definition filter_from_params (output_files : list OutputRecord)
    (kwargs : dict value) : result (list OutputRecord) :=
  let kwargs_list := fill_kwargs_with_lists kwargs in
  if dict_is_empty kwargs_list then Ok output_files
  else
    bind (product_dict kwargs_list) (fun assignments =>
    bind (filter_loop assignments output_files) (fun file_names =>
    Ok file_names)).

(** The components of a path between its slashes, empty ones left out. *)
Definition path_components (path : string) : list string :=
  List.filter (λ comp, negb (posixpath.is_empty comp))
    (posixpath.split_sep path).

(** ** Example inputs *)

(** [Parameter.serialize] of the example tasks, whose parameter values are
    strings. *)
Definition example_serialize (v : value) : string :=
  match v with
  | VStr s => s
  | _ => ""
  end.

Definition significant_parameter : LuigiParameter :=
  {| significant := true; serialize := example_serialize |}.

Definition insignificant_parameter : LuigiParameter :=
  {| significant := false; serialize := example_serialize |}.

(** A task with the significant parameter [run] that declares the output
    [log]. *)
Definition log_task (run : string) : Task :=
  mkTask "LogTask" [("run", significant_parameter)] (λ _, VStr run) []
    (Some [("log", "log.txt")]).

(** A root without parameters or outputs over two [log_task]s. *)
Definition two_logs_root : Task :=
  mkTask "Root" [] (λ _, VNone) [log_task "1"; log_task "2"] None.

(** The record the registry holds for [log_task run] under [/work]. *)
Definition log_record (run : string) : OutputRecord :=
  {| parameters := [("run", run)]; file_name := "/work/log.txt" |}.

(** A record whose only parameter is [x = "1"]. *)
Definition x1_record : OutputRecord :=
  {| parameters := [("x", "1")]; file_name := "/out/x=1/hist.root" |}.

(** A task with the significant parameters [exp] and [run] and an
    insignificant one between them. *)
Definition hist_task : Task :=
  mkTask "HistTask"
    [("exp", significant_parameter); ("tmp", insignificant_parameter);
     ("run", significant_parameter)]
    (λ key, if String.eqb key "exp" then VStr "1003"
            else if String.eqb key "run" then VStr "5" else VStr "scratch")
    [] (Some [("hist", "/out/exp=1003/run=5/hist.root")]).

(** Constraints with a [None]-valued key. *)
Definition none_constraints : dict value :=
  [("run", VNone); ("exp", VInt 1003); ("name", VStr "ab")].

(** ** Structures of targets *)

(** What the flattening helpers meet at the leaves and as dictionary keys:
    [None], an integer, a string, or a target, an object with a [path]
    attribute that compares by identity. *)
Inductive atom : Type :=
| ANone
| AInt (n : Z)
| AStr (s : string)
| ATarget (id : nat) (path : string).

Global Instance atom_eq_dec : EqDecision atom.
Proof. solve_decision. Defined.

(** An input structure: a leaf, a list, or a dictionary in insertion
    order. *)
Unset Elimination Schemes.
Inductive obj : Type :=
| Atom (a : atom)
| OList (xs : list obj)
| ODict (items : list (atom * obj)).
Set Elimination Schemes.

(** [d.get(key)] on a dictionary whose keys are atoms. *)
Fixpoint adict_get {V} (key : atom) (d : list (atom * V)) : option V :=
  match d with
  | [] => None
  | (k, v) :: d' => if bool_decide (k = key) then Some v else adict_get key d'
  end.

(** [d[key] = v] on a dictionary whose keys are atoms. *)
Fixpoint adict_set {V} (key : atom) (v : V) (d : list (atom * V))
  : list (atom * V) :=
  match d with
  | [] => [(key, v)]
  | (k, w) :: d' =>
      if bool_decide (k = key) then (k, v) :: d'
      else (k, w) :: adict_set key v d'
  end.

(** [_to_dict(d)]; a list cannot be the key of [{d: d}]. *)
Definition _to_dict (d : obj) : result (list (atom * obj)) :=
  match d with
  | ODict items => Ok items
  | Atom a => Ok [(a, d)]
  | OList _ => Raise TypeError
  end.

(** [_flatten(struct)]: a dictionary or a string is returned as the only
    item, so is a value that [iter] rejects, and a list is gone through. *)
Fixpoint _flatten (struct : obj) : list obj :=
  match struct with
  | ODict _ => [struct]
  | Atom (AStr _) => [struct]
  | Atom _ => [struct]
  | OList xs => flat_map _flatten xs
  end.

(** The keyword arguments that a call with a double-starred [i] passes:
    every key has to be a string. *)
Fixpoint keywords (i : list (atom * obj)) : result (dict obj) :=
  match i with
  | [] => Ok []
  | (AStr s, v) :: i' => bind (keywords i') (λ kw, Ok ((s, v) :: kw))
  | _ :: _ => Raise TypeError
  end.

(** [joined_dict.update] with keyword arguments [kw]. *)
Definition dict_update {V} (joined_dict : dict V) (kw : dict V) : dict V :=
  fold_left (λ d kv, dict_set kv.1 kv.2 d) kw joined_dict.

(** [flatten_to_dict(inputs)] *)
Definition flatten_to_dict (inputs : obj) : result (dict obj) :=
  let inputs := _flatten inputs in
  let inputs := map _to_dict inputs in
  for_each inputs
    (λ joined_dict i,
       bind i (λ i,
       bind (keywords i) (λ kw, Ok (dict_update joined_dict kw))))
    [].

(** [joined_dict[key].append(value)] on a [collections.defaultdict(list)]. *)
Definition defaultdict_append_value (joined_dict : list (atom * list obj))
    (key : atom) (value : obj) : list (atom * list obj) :=
  adict_set key (default [] (adict_get key joined_dict) ++ [value]) joined_dict.

(** [flatten_to_list_of_dicts(inputs)] *)
Definition flatten_to_list_of_dicts (inputs : obj)
  : result (list (atom * list obj)) :=
  let inputs := _flatten inputs in
  let inputs := map _to_dict inputs in
  for_each inputs
    (λ joined_dict i,
       bind i (λ i,
       Ok (fold_left (λ d kv, defaultdict_append_value d kv.1 kv.2)
                     i joined_dict)))
    [].

(** [not inputs] *)
Definition falsy (inputs : obj) : bool :=
  match inputs with
  | Atom ANone => true
  | Atom (AInt n) => Z.eqb n 0
  | Atom (AStr s) => posixpath.is_empty s
  | Atom (ATarget _ _) => false
  | OList xs => bool_decide (xs = [])
  | ODict items => bool_decide (items = [])
  end.

(** [flatten_to_file_paths] on a leaf. *)
Definition flatten_atom (a : atom) : obj :=
  if falsy (Atom a) then Atom ANone
  else match a with
       | ATarget _ path => Atom (AStr path)
       | _ => Atom a
       end.

(** [os.path.basename(p)], which takes a string. *)
Definition basename_of (p : obj) : result string :=
  match p with
  | Atom (AStr s) => Ok (posixpath.basename s)
  | _ => Raise TypeError
  end.

(** [flatten_to_file_paths(inputs)]; the dictionary is built item by item,
    a key met again taking the later value. *)
Fixpoint flatten_to_file_paths (inputs : obj) : result obj :=
  if falsy inputs then Ok (Atom ANone)
  else
    match inputs with
    | Atom a => Ok (flatten_atom a)
    | ODict items =>
        bind
          ((fix comprehension (items : list (atom * obj))
                (acc : list (atom * obj)) {struct items}
              : result (list (atom * obj)) :=
              match items with
              | [] => Ok acc
              | (key, value) :: rest =>
                  bind (basename_of (flatten_atom key)) (λ k,
                  bind (flatten_to_file_paths value) (λ v,
                  comprehension rest (adict_set (AStr k) v acc)))
              end) items [])
          (λ d, Ok (ODict d))
    | OList _ => Ok inputs
    end.

(** ** Log files *)

(** The error of the file system that the code can meet by its own
    doing. *)
Inductive os_error : Type :=
| FileNotFoundError.

Inductive os_result (A : Type) : Type :=
| Done (a : A)
| Failed (e : os_error).
Global Arguments Done {A} a.
Global Arguments Failed {A} e.

(** [os.makedirs(path, exist_ok=True)] raises [FileNotFoundError] on the
    empty path; on any other path it is taken to succeed, the folder being
    there or made. *)
Definition makedirs_fails (call : fs_call) : bool :=
  match call with
  | Makedirs path => posixpath.is_empty path
  end.

(** The outcome of a call of [create_output_file_name], whose [os.makedirs]
    stands before its [return]: the exception, or the calls made and the
    name returned. *)
Definition outcome (call : list fs_call * string)
  : os_result (list fs_call * string) :=
  if existsb makedirs_fails call.1 then Failed FileNotFoundError
  else Done call.

(** [get_log_files(task)] in a process whose script, [sys.argv[0]] with
    symbolic links resolved, is [script]: the exception of the first
    [create_output_file_name] that raises, or the file-system calls made
    and the two names returned. *)
Definition get_log_files (settings : gmap string string) (script : string)
    (task : Task) : os_result (list fs_call * (string * string)) :=
  let filename := script in
  let log_folder :=
    get_setting settings "log_folder"
      (posixpath.join (posixpath.dirname filename) ["logs"]) in
  match outcome (create_output_file_name settings task
                   (get_task_family task +:+ "_stdout") true
                   (Some log_folder)) with
  | Failed e => Failed e
  | Done stdout_file_name =>
      match outcome (create_output_file_name settings task
                       (get_task_family task +:+ "_stderr") true
                       (Some log_folder)) with
      | Failed e => Failed e
      | Done stderr_file_name =>
          Done (stdout_file_name.1 ++ stderr_file_name.1,
                (stdout_file_name.2, stderr_file_name.2))
      end
  end.

(** ** Notions the properties are stated with *)

(** [reachable task task']: [task'] is [task] or lies below one of its
    dependencies. *)
Inductive reachable : Task → Task → Prop :=
| reachable_here (task : Task) : reachable task task
| reachable_dep (task dep task' : Task) :
    dep ∈ deps task → reachable dep task' → reachable task task'.

(** The record that [task] contributes under [key], if it declares it. *)
Definition declared_record (cwd key : string) (task : Task)
  : option OutputRecord :=
  match get_output_file_names task with
  | Some output_dict =>
      match dict_get key output_dict with
      | Some file_name =>
          Some {| parameters := task_get_serialized_parameters task;
                  file_name := posixpath.abspath cwd file_name |}
      | None => None
      end
  | None => None
  end.

(** A string without a slash. *)
Fixpoint no_sep (s : string) : bool :=
  match s with
  | EmptyString => true
  | String c s' => negb (posixpath.is_sep c) && no_sep s'
  end.

(** A dictionary with string keys as a structure. *)
Definition str_dict (d : dict obj) : obj :=
  ODict ((λ kv, (AStr kv.1, kv.2)) <$> d).

(** A leaf that can be passed as keyword arguments: a string, or a
    dictionary whose keys are all strings. *)
Definition string_keyed (leaf : obj) : bool :=
  match leaf with
  | Atom (AStr _) => true
  | Atom _ => false
  | ODict items =>
      forallb (λ kv, match kv.1 with AStr _ => true | _ => false end) items
  | OList _ => false
  end.

(** The value a leaf holds for a key, if any. *)
Definition leaf_get (key : atom) (leaf : obj) : option obj :=
  match _to_dict leaf with
  | Ok i => adict_get key i
  | Raise _ => None
  end.

(** The dictionary comprehension of [flatten_to_file_paths], item by
    item. *)
Fixpoint file_paths_of_items (items acc : list (atom * obj))
  : result (list (atom * obj)) :=
  match items with
  | [] => Ok acc
  | (key, value) :: rest =>
      bind (basename_of (flatten_atom key)) (λ k,
      bind (flatten_to_file_paths value) (λ v,
      file_paths_of_items rest (adict_set (AStr k) v acc)))
  end.

(** The outputs of a task as it declares them: a dictionary from a name
    to a target, given by the target's identity and path. *)
Definition target_dict (outputs : list (string * (nat * string))) : obj :=
  ODict ((λ o, (AStr o.1, Atom (ATarget o.2.1 o.2.2))) <$> outputs).

(** ** Further example inputs *)

(** [hist_task] run again with another value of its insignificant
    parameter, under another family name and over a dependency. *)
Definition hist_task_again : Task :=
  mkTask "HistTaskAgain"
    [("exp", significant_parameter); ("tmp", insignificant_parameter);
     ("run", significant_parameter)]
    (λ key, if String.eqb key "exp" then VStr "1003"
            else if String.eqb key "run" then VStr "5" else VStr "other")
    [log_task "1"] None.

(** * Properties *)

(** Closes a decidable goal on concrete data by evaluating its decision
    procedure. *)
Ltac decide_true := apply (bool_decide_unpack _); vm_compute; exact I.

(** Finds an element in a list given by its items. *)
Ltac elem_of_items :=
  repeat first [apply list_elem_of_here | apply list_elem_of_further].

(** ** Values *)

Lemma value_ind (P : value → Prop) :
  P VNone → (∀ n, P (VInt n)) → (∀ s, P (VStr s)) →
  (∀ xs, Forall P xs → P (VList xs)) →
  ∀ v, P v.
Proof.
  intros HNone HInt HStr HList. fix IH 1. intros [|n|s|xs].
  - exact HNone.
  - exact (HInt n).
  - exact (HStr s).
  - apply HList. induction xs as [|x xs IHxs]; constructor.
    + exact (IH x).
    + exact IHxs.
Qed.

(** [==] on the modelled values is equality. *)
Lemma eqb_eq (a b : value) : eqb a b = true ↔ a = b.
Proof.
  revert b. induction a as [|m|s|xs IH] using value_ind; intros [|n|t|ys];
    simpl; try (split; discriminate).
  - done.
  - rewrite Z.eqb_eq. split; congruence.
  - rewrite String.eqb_eq. split; congruence.
  - revert ys. induction IH as [|x xs Hx _ IHxs]; intros [|y ys];
      try (split; discriminate); [done|].
    rewrite andb_true_iff, Hx, IHxs. split.
    + by intros [-> [= ->]].
    + by intros [= -> ->].
Qed.

(** ** Dictionaries *)

Lemma dict_set_fresh {V} (key : string) (v : V) (d : dict V) :
  key ∉ d.*1 → dict_set key v d = d ++ [(key, v)].
Proof.
  induction d as [|[k w] d IH]; simpl; intros Hfresh; [done|].
  apply not_elem_of_cons in Hfresh as [Hne Hfresh].
  destruct (String.eqb_spec k key) as [->|_]; [done|].
  by rewrite IH.
Qed.

(** A loop that stores [val x] under [key x] for the items it keeps builds
    the dictionary of the kept items, in order, when the keys are distinct. *)
Lemma fold_dict_set {A V} (keep : A → bool) (key : A → string) (val : A → V)
    (step : dict V → A → dict V) (items : list A) (acc : dict V) :
  (∀ d x, step d x = if keep x then dict_set (key x) (val x) d else d) →
  NoDup (acc.*1 ++ (key <$> items)) →
  fold_left step items acc
  = acc ++ ((λ x, (key x, val x)) <$> List.filter keep items).
Proof.
  intros Hstep. revert acc.
  induction items as [|x items IH]; simpl; intros acc Hnd.
  - by rewrite app_nil_r.
  - rewrite Hstep. apply NoDup_app in Hnd as (Hacc & Hdisj & Hitems).
    apply NoDup_cons in Hitems as [Hx Hitems].
    destruct (keep x); simpl.
    + rewrite dict_set_fresh by (intros Hin; apply (Hdisj _ Hin); left).
      rewrite IH.
      * by rewrite <- app_assoc.
      * rewrite fmap_app. simpl. rewrite <- app_assoc. simpl.
        apply NoDup_app. split_and!; [done| |by apply NoDup_cons].
        intros k Hk. apply Hdisj in Hk. done.
    + apply IH. apply NoDup_app. split_and!; [done| |done].
      intros k Hk Hin. apply (Hdisj _ Hk). by right.
Qed.

Lemma filter_all {A} (l : list A) : List.filter (λ _, true) l = l.
Proof. induction l; simpl; congruence. Qed.

Lemma dict_of_items_nodup {V} (items : list (string * V)) :
  NoDup items.*1 → dict_of_items items = items.
Proof.
  intros Hnd. unfold dict_of_items.
  rewrite (fold_dict_set (λ _, true) fst snd) by done.
  rewrite filter_all. simpl.
  induction items as [|[k v] items IH]; simpl; [done|].
  f_equal. apply IH. by apply NoDup_cons in Hnd as [_ ?].
Qed.

Lemma dict_get_elem {V} (key : string) (v : V) (d : dict V) :
  NoDup d.*1 → (key, v) ∈ d → dict_get key d = Some v.
Proof.
  induction d as [|[k w] d IH]; simpl; intros Hnd Hin.
  - by apply elem_of_nil in Hin.
  - apply NoDup_cons in Hnd as [Hk Hnd].
    apply elem_of_cons in Hin as [Heq|Hin].
    + injection Heq as <- <-. by rewrite String.eqb_refl.
    + destruct (String.eqb_spec k key) as [->|_]; [|by apply IH].
      exfalso. apply Hk. apply list_elem_of_fmap. by exists (key, v).
Qed.

Lemma dict_get_None {V} (key : string) (d : dict V) :
  dict_get key d = None ↔ key ∉ d.*1.
Proof.
  induction d as [|[k w] d IH]; simpl.
  - split; [intros _; apply not_elem_of_nil|done].
  - rewrite not_elem_of_cons.
    destruct (String.eqb_spec k key) as [->|Hne].
    + split; [discriminate|by intros [? _]].
    + rewrite IH. split; [intros; split; [congruence|done]|by intros [_ ?]].
Qed.

(** ** The Cartesian product *)

Lemma length_flat_map_const {A B} (f : A → list B) (n : nat) (l : list A) :
  (∀ x, length (f x) = n) → length (flat_map f l) = length l * n.
Proof.
  intros Hf. induction l as [|x l IH]; simpl; [done|].
  rewrite length_app, Hf, IH. lia.
Qed.

Lemma length_product {A} (pools : list (list A)) :
  length (itertools.product pools) = foldr Nat.mul 1 (length <$> pools).
Proof.
  induction pools as [|pool rest IH]; simpl; [done|].
  rewrite (length_flat_map_const _ (length (itertools.product rest))).
  - by rewrite IH.
  - intros x. by rewrite length_map.
Qed.

Lemma elem_of_product {A} (pools : list (list A)) (t : list A) :
  t ∈ itertools.product pools ↔ Forall2 (∈) t pools.
Proof.
  revert t. induction pools as [|pool rest IH]; simpl; intros t.
  - rewrite list_elem_of_singleton. split.
    + intros ->. constructor.
    + by intros ->%Forall2_nil_inv_r.
  - rewrite list_elem_of_In, in_flat_map. split.
    + intros (x & Hx & Ht). apply in_map_iff in Ht as (t' & <- & Ht').
      constructor; [by apply list_elem_of_In|].
      by apply IH, list_elem_of_In.
    + intros (x & t' & Hx & Ht' & ->)%Forall2_cons_inv_r.
      exists x. split; [by apply list_elem_of_In|].
      apply in_map. by apply list_elem_of_In, IH.
Qed.

Lemma product_empty_pool {A} (pools : list (list A)) :
  [] ∈ pools → itertools.product pools = [].
Proof.
  induction pools as [|pool rest IH]; simpl; intros Hin.
  - by apply elem_of_nil in Hin.
  - apply elem_of_cons in Hin as [<-|Hin]; [done|].
    rewrite IH by done. by induction pool.
Qed.

(** ** The parameter combinator *)

Lemma iter_all_lists (pools : list (list value)) :
  iter_all (VList <$> pools) = Ok pools.
Proof. induction pools as [|pool pools IH]; csimpl; [done|]. by rewrite IH. Qed.

Lemma product_dict_lists (kw : list (string * list value)) :
  NoDup kw.*1 →
  product_dict (list_kwargs kw) = Ok (zip kw.*1 <$> itertools.product kw.*2).
Proof.
  intros Hnd. unfold product_dict, list_kwargs.
  rewrite <- !list_fmap_compose.
  replace (snd ∘ (λ kv : string * list value, (kv.1, VList kv.2)) <$> kw)
    with (VList <$> kw.*2) by by rewrite <- list_fmap_compose.
  rewrite iter_all_lists. simpl. f_equal.
  apply list_eq_Forall2, Forall2_fmap, Forall_Forall2_diag, Forall_forall.
  intros t Ht%elem_of_product.
  change (fst ∘ _ <$> kw) with (kw.*1).
  apply dict_of_items_nodup. rewrite fst_zip; [done|].
  apply Forall2_length in Ht. rewrite !length_fmap in *. lia.
Qed.

Lemma fill_kwargs_with_lists_fmap (kwargs : dict value) :
  NoDup kwargs.*1 →
  fill_kwargs_with_lists kwargs = (λ kv, (kv.1, listified kv.2)) <$> kwargs.
Proof.
  intros Hnd. unfold fill_kwargs_with_lists.
  rewrite (fold_dict_set (λ _, true) fst (λ kv, listified kv.2)).
  - by rewrite filter_all.
  - intros d [k v]. simpl. by destruct v.
  - done.
Qed.

Lemma listified_iterable (v : value) : is_iterable (listified v) = true.
Proof. by destruct v. Qed.

Lemma iter_all_iterable (vs : list value) :
  Forall (λ v, is_iterable v = true) vs →
  ∃ pools, iter_all vs = Ok pools ∧ Forall2 (λ v pool, iter v = Ok pool) vs pools.
Proof.
  induction 1 as [|v vs Hv _ (pools & Hpools & Hall)]; simpl.
  - exists []. by split; [|constructor].
  - destruct v as [| |s|xs]; try done; simpl; rewrite Hpools; simpl.
    + exists (chars s :: pools). by split; [|constructor].
    + exists (xs :: pools). by split; [|constructor].
Qed.

(** A constraint that normalizes to the empty list leaves nothing to
    expand. *)
Lemma product_dict_empty_candidate (kwargs : dict value) :
  Forall (λ v, is_iterable v = true) kwargs.*2 →
  VList [] ∈ kwargs.*2 →
  product_dict kwargs = Ok [].
Proof.
  intros Hit Hin. unfold product_dict.
  destruct (iter_all_iterable _ Hit) as (pools & -> & Hall). simpl.
  rewrite product_empty_pool; [done|].
  clear Hit. induction Hall as [|v pool vs pools Hv _ IH].
  - by apply elem_of_nil in Hin.
  - apply elem_of_cons in Hin as [<-|Hin].
    + injection Hv as <-. left.
    + right. by apply IH.
Qed.

Lemma fill_kwargs_with_lists_nil_inv (kwargs : dict value) :
  NoDup kwargs.*1 → kwargs ≠ [] →
  dict_is_empty (fill_kwargs_with_lists kwargs) = false.
Proof.
  intros Hnd Hne. rewrite fill_kwargs_with_lists_fmap by done.
  by destruct kwargs.
Qed.

(** ** Claims about the parameter combinator *)

(** C5: on a mapping from constraint names to candidate lists,
    [product_dict] yields the full Cartesian product: as many assignments
    as the product of the lengths of the candidate lists, and an assignment
    is yielded exactly when it has the keys of the input, in the input's
    order, each bound to one of the candidates of that key. *)
Theorem product_dict_cartesian (kw : list (string * list value)) :
  NoDup kw.*1 →
  ∃ assignments,
    product_dict (list_kwargs kw) = Ok assignments
    ∧ length assignments = foldr Nat.mul 1 (length <$> kw.*2)
    ∧ ∀ a : dict value,
        a ∈ assignments ↔ a.*1 = kw.*1 ∧ Forall2 (∈) a.*2 kw.*2.
Proof.
  intros Hnd. eexists. split; [by apply product_dict_lists|]. split.
  - by rewrite length_fmap, length_product.
  - intros a. rewrite list_elem_of_fmap. split.
    + intros (t & -> & Ht%elem_of_product).
      pose proof (Forall2_length _ _ _ Ht) as Hlen.
      rewrite !length_fmap in Hlen.
      rewrite fst_zip, snd_zip by (rewrite !length_fmap; lia). done.
    + intros [Hkeys Hvals]. exists a.*2. split.
      * by rewrite <- Hkeys, zip_fst_snd.
      * by apply elem_of_product.
Qed.

Lemma product_dict_cartesian_witness :
  NoDup ["x"; "y"]
  ∧ ∃ assignments,
      product_dict [("x", VList [VInt 1; VInt 2]); ("y", VList [VInt 3])]
        = Ok assignments
      ∧ length assignments = 2
      ∧ ∀ a : dict value,
          a ∈ assignments ↔
          a.*1 = ["x"; "y"] ∧ Forall2 (∈) a.*2 [[VInt 1; VInt 2]; [VInt 3]].
Proof.
  assert (Hnd : NoDup ["x"; "y"]) by decide_true.
  split; [exact Hnd|].
  exact (product_dict_cartesian
           [("x", [VInt 1; VInt 2]); ("y", [VInt 3])] Hnd).
Defined.

(** The example of the specification: [{x: [1, 2], y: [3]}] expands to
    [{x: 1, y: 3}] and [{x: 2, y: 3}], in this order. *)
Example product_dict_x12_y3 :
  product_dict [("x", VList [VInt 1; VInt 2]); ("y", VList [VInt 3])]
  = Ok [ [("x", VInt 1); ("y", VInt 3)]; [("x", VInt 2); ("y", VInt 3)] ].
Proof. reflexivity. Qed.

(** The example of the docstring of [product_dict]; the fourth dictionary
    has [arg_2 = 4]. *)
Example product_dict_doc :
  product_dict
    [("arg_1", VList [VInt 1; VInt 2]); ("arg_2", VList [VInt 3; VInt 4])]
  = Ok [ [("arg_1", VInt 1); ("arg_2", VInt 3)];
         [("arg_1", VInt 1); ("arg_2", VInt 4)];
         [("arg_1", VInt 2); ("arg_2", VInt 3)];
         [("arg_1", VInt 2); ("arg_2", VInt 4)] ].
Proof. reflexivity. Qed.

(** The example of the docstring of [fill_kwargs_with_lists]. *)
Example fill_kwargs_doc :
  fill_kwargs_with_lists [("arg_1", VList [VInt 1; VInt 2]); ("arg_2", VInt 3)]
  = [("arg_1", VList [VInt 1; VInt 2]); ("arg_2", VList [VInt 3])].
Proof. reflexivity. Qed.

(** C10: a string is an [Iterable], so [fill_kwargs_with_lists] leaves a
    string-valued constraint as it is and [product_dict] goes through it
    character by character: [{x: "ab"}] expands to [{x: "a"}] and
    [{x: "b"}], not to [{x: "ab"}]. *)
Theorem string_constraint_expands_by_character (key s : string) :
  fill_kwargs_with_lists [(key, VStr s)] = [(key, VStr s)]
  ∧ product_dict (fill_kwargs_with_lists [(key, VStr s)])
    = Ok ((λ c, [(key, c)]) <$> chars s)
  ∧ product_dict (fill_kwargs_with_lists [("x", VStr "ab")])
    = Ok [ [("x", VStr "a")]; [("x", VStr "b")] ].
Proof.
  split; [done|]. split; [|done].
  unfold product_dict. simpl. f_equal.
  induction (chars s) as [|c cs IH]; simpl; [done|]. by rewrite IH.
Qed.

(** ** The filter engine *)

Lemma filter_from_params_no_assignment (output_files : list OutputRecord)
    (kwargs : dict value) :
  dict_is_empty (fill_kwargs_with_lists kwargs) = false →
  product_dict (fill_kwargs_with_lists kwargs) = Ok [] →
  filter_from_params output_files kwargs = Ok [].
Proof. intros Hne Hprod. unfold filter_from_params. by rewrite Hne, Hprod. Qed.

(** What [fill_kwargs_with_lists] does, by its test on [Iterable]: it
    keeps every key, maps [None] to the empty list, wraps a value that is
    not iterable in a one-element list and leaves an iterable, a string
    among them, as it is, so every stored value is iterable; a constraint
    set with a [None]-valued key expands to no assignment and the filter
    returns no record for it. *)
Theorem fill_kwargs_with_lists_normalizes (kwargs : dict value) :
  NoDup kwargs.*1 →
  (fill_kwargs_with_lists kwargs).*1 = kwargs.*1
  ∧ Forall (λ v, is_iterable v = true) (fill_kwargs_with_lists kwargs).*2
  ∧ (∀ key v, (key, v) ∈ kwargs →
       (v = VNone →
        dict_get key (fill_kwargs_with_lists kwargs) = Some (VList []))
       ∧ (v ≠ VNone → is_iterable v = false →
          dict_get key (fill_kwargs_with_lists kwargs) = Some (VList [v]))
       ∧ (is_iterable v = true →
          dict_get key (fill_kwargs_with_lists kwargs) = Some v))
  ∧ (∀ key, (key, VNone) ∈ kwargs →
       product_dict (fill_kwargs_with_lists kwargs) = Ok []
       ∧ ∀ output_files, filter_from_params output_files kwargs = Ok []).
Proof.
  intros Hnd.
  assert (Hkeys : (fill_kwargs_with_lists kwargs).*1 = kwargs.*1).
  { rewrite fill_kwargs_with_lists_fmap by done.
    by rewrite <- list_fmap_compose. }
  assert (Hit : Forall (λ v, is_iterable v = true)
                  (fill_kwargs_with_lists kwargs).*2).
  { rewrite fill_kwargs_with_lists_fmap by done.
    rewrite <- list_fmap_compose. apply Forall_fmap, Forall_forall.
    intros [k v] _. apply listified_iterable. }
  assert (Hget : ∀ key v, (key, v) ∈ kwargs →
            dict_get key (fill_kwargs_with_lists kwargs) = Some (listified v)).
  { intros key v Hin. apply dict_get_elem; [by rewrite Hkeys|].
    rewrite fill_kwargs_with_lists_fmap by done.
    apply list_elem_of_fmap. by exists (key, v). }
  split_and!; [done|done| |].
  - intros key v Hin. rewrite (Hget _ _ Hin). split_and!.
    + by intros ->.
    + intros Hv Hnot. by destruct v.
    + intros Hiter. by destruct v.
  - intros key Hin.
    assert (Hprod : product_dict (fill_kwargs_with_lists kwargs) = Ok []).
    { apply product_dict_empty_candidate; [done|].
      rewrite fill_kwargs_with_lists_fmap by done.
      rewrite <- list_fmap_compose. apply list_elem_of_fmap.
      by exists (key, VNone). }
    split; [done|]. intros output_files.
    apply filter_from_params_no_assignment; [|done].
    apply fill_kwargs_with_lists_nil_inv; [done|].
    intros ->. by apply elem_of_nil in Hin.
Qed.

Lemma fill_kwargs_with_lists_normalizes_witness :
  NoDup none_constraints.*1
  ∧ (fill_kwargs_with_lists none_constraints).*1 = ["run"; "exp"; "name"]
  ∧ dict_get "run" (fill_kwargs_with_lists none_constraints) = Some (VList [])
  ∧ dict_get "exp" (fill_kwargs_with_lists none_constraints)
    = Some (VList [VInt 1003])
  ∧ filter_from_params [log_record "1"] none_constraints = Ok [].
Proof.
  assert (Hnd : NoDup none_constraints.*1) by decide_true.
  destruct (fill_kwargs_with_lists_normalizes none_constraints Hnd)
    as (Hkeys & _ & Hget & Hnone).
  split_and!.
  - exact Hnd.
  - exact Hkeys.
  - apply (Hget "run" VNone); [elem_of_items|reflexivity].
  - apply (Hget "exp" (VInt 1003)); [elem_of_items|discriminate|reflexivity].
  - apply (Hnone "run"). elem_of_items.
Defined.

(** C7: a value that is not a sequence of candidates is to be wrapped in a
    one-element list, and the docstring of [fill_kwargs_with_lists] has
    every value that is not a list mapped to [[value]]; the string ["10"]
    is stored as it is, not as [["10"]], and the expansion then takes it
    for the two candidates ["1"] and ["0"]. *)
Theorem fill_kwargs_with_lists_keeps_string :
  fill_kwargs_with_lists [("run", VStr "10")] = [("run", VStr "10")]
  ∧ fill_kwargs_with_lists [("run", VStr "10")]
    ≠ [("run", VList [VStr "10"])]
  ∧ product_dict (fill_kwargs_with_lists [("run", VStr "10")])
    = Ok [[("run", VStr "1")]; [("run", VStr "0")]].
Proof. by split_and!; vm_compute. Qed.

(** C6: filtering with no constraint returns the records given, unchanged
    and in their order; the guard on the empty mapping returns before any
    expansion. *)
Theorem filter_from_params_identity (output_files : list OutputRecord) :
  filter_from_params output_files [] = Ok output_files.
Proof. reflexivity. Qed.

(** C8, as the code has it: on the empty mapping [product_dict] yields one
    assignment, the empty one, as [itertools.product] of no pool is the
    single empty tuple; [filter_from_params] does not reach it, its guard
    on the empty normalized mapping returns all the records first. *)
Theorem product_dict_empty_mapping :
  product_dict [] = Ok [[]]
  ∧ dict_is_empty (fill_kwargs_with_lists []) = true
  ∧ ∀ output_files, filter_from_params output_files [] = Ok output_files.
Proof. by split_and!. Qed.

(** C8, as stated, fails: the empty mapping does not expand to zero
    assignments. *)
Lemma product_dict_empty_mapping_not_zero :
  ¬ ∃ assignments,
      product_dict [] = Ok assignments ∧ length assignments = 0.
Proof. intros (assignments & [= <-] & Hlen). discriminate Hlen. Qed.

(** ** The registry builder *)

Lemma defaultdict_append_fold_lookup_None (mk : string → OutputRecord)
    (items : dict string) (acc : gmap string (list OutputRecord))
    (key : string) :
  acc !! key = None → key ∉ items.*1 →
  fold_left (λ all_output_files kv,
               defaultdict_append all_output_files kv.1 (mk kv.2))
            items acc !! key = None.
Proof.
  revert acc. induction items as [|[k f] items IH]; simpl; intros acc Hacc Hk.
  - done.
  - apply not_elem_of_cons in Hk as [Hne Hk].
    apply IH; [|done]. unfold defaultdict_append.
    by rewrite lookup_insert_ne.
Qed.

(** A key that no task of the tree declares is not a key of the registry. *)
Lemma all_output_files_in_tree_undeclared (cwd : string) (root_module : Task)
    (key : string) :
  (∀ task output_dict,
     task ∈ task_iterator root_module →
     get_output_file_names task = Some output_dict →
     dict_get key output_dict = None) →
  all_output_files_in_tree cwd root_module !! key = None.
Proof.
  unfold all_output_files_in_tree.
  generalize (task_iterator root_module) as tasks.
  assert (Hacc : (∅ : gmap string (list OutputRecord)) !! key = None)
    by apply lookup_empty.
  revert Hacc. generalize (∅ : gmap string (list OutputRecord)) as acc.
  intros acc Hacc tasks. revert acc Hacc.
  induction tasks as [|task tasks IH]; simpl; intros acc Hacc Hundecl; [done|].
  apply IH.
  - destruct (get_output_file_names task) as [output_dict|] eqn:Hout; [|done].
    destruct (dict_is_empty output_dict); [done|].
    apply (defaultdict_append_fold_lookup_None
             (λ f, {| parameters := task_get_serialized_parameters task;
                      file_name := posixpath.abspath cwd f |})); [done|].
    apply dict_get_None, (Hundecl task); [left|done].
  - intros t d Ht. apply Hundecl. by right.
Qed.

(** C3, as the code has it: the registry is a [defaultdict] of lists, so
    asking for a non-empty key that no task of the tree declares returns
    the empty list; no lookup failure is raised. *)
Theorem undeclared_key_gives_empty_entry (cwd : string) (root_module : Task)
    (key : string) :
  key ≠ "" →
  (∀ task output_dict,
     task ∈ task_iterator root_module →
     get_output_file_names task = Some output_dict →
     dict_get key output_dict = None) →
  get_all_output_files_in_tree cwd root_module (Some key) = Entry [].
Proof.
  intros Hkey Hundecl. unfold get_all_output_files_in_tree, key_truthy.
  destruct key as [|c key]; [done|]. simpl.
  unfold defaultdict_getitem.
  by rewrite all_output_files_in_tree_undeclared.
Qed.

Lemma undeclared_key_gives_empty_entry_witness :
  "hist" ≠ ""
  ∧ get_all_output_files_in_tree "/work" two_logs_root (Some "hist") = Entry [].
Proof.
  split; [discriminate|].
  apply undeclared_key_gives_empty_entry; [discriminate|].
  intros task output_dict Hin Hout. vm_compute in Hin.
  repeat (apply elem_of_cons in Hin as [->|Hin];
          [vm_compute in Hout; try discriminate Hout;
           injection Hout as <-; reflexivity|]).
  by apply elem_of_nil in Hin.
Defined.

(** C3, as stated, fails: the request for a key that no task declares
    returns normally, with the empty list. *)
Lemma undeclared_key_no_lookup_failure :
  (∀ task output_dict,
     task ∈ task_iterator two_logs_root →
     get_output_file_names task = Some output_dict →
     dict_get "hist" output_dict = None)
  ∧ get_all_output_files_in_tree "/work" two_logs_root (Some "hist") = Entry [].
Proof.
  split; [|reflexivity].
  intros task output_dict Hin Hout. vm_compute in Hin.
  repeat (apply elem_of_cons in Hin as [->|Hin];
          [vm_compute in Hout; try discriminate Hout;
           injection Hout as <-; reflexivity|]).
  by apply elem_of_nil in Hin.
Qed.

(** ** Matching and collecting *)

Lemma neb_false (a b : value) : neb a b = false ↔ a = b.
Proof. unfold neb. by rewrite negb_false_iff, eqb_eq. Qed.

(** The match rule of the inner loop: an assignment leaves [not_use] false
    exactly when every key it shares with the parameters of the record is
    bound to the record's serialized value; a key the record lacks is
    passed over. *)
Lemma not_use_false_iff (items : list (string * value))
    (parameters : dict string) :
  not_use items parameters = false ↔
  ∀ key v p, (key, v) ∈ items → dict_get key parameters = Some p → VStr p = v.
Proof.
  induction items as [|[k w] items IH]; simpl.
  - split; [|done]. intros _ key v p Hin. by apply elem_of_nil in Hin.
  - destruct (dict_get k parameters) as [q|] eqn:Hq.
    + destruct (neb (VStr q) w) eqn:Hneb.
      * split; [done|]. intros Hall.
        assert (VStr q = w) as Heq%neb_false by (apply (Hall k); [left|done]).
        congruence.
      * apply neb_false in Hneb. rewrite IH. split.
        -- intros Hall key v p [[= -> ->]|Hin]%elem_of_cons Hp.
           ++ congruence.
           ++ by apply (Hall key).
        -- intros Hall key v p Hin. apply Hall. by right.
    + rewrite IH. split.
      * intros Hall key v p [[= -> ->]|Hin]%elem_of_cons Hp.
        -- congruence.
        -- by apply (Hall key).
      * intros Hall key v p Hin. apply Hall. by right.
Qed.

(** A record is a [dict] and cannot enter the set: [set.add] raises
    [TypeError] on it. *)
Lemma set_add_raises (output_dict : OutputRecord)
    (file_names : list OutputRecord) :
  set_add output_dict file_names = Raise TypeError.
Proof. reflexivity. Qed.

Lemma filter_records_raises (kwargs : dict value)
    (output_files : list OutputRecord) (output_dict : OutputRecord)
    (acc : list OutputRecord) :
  output_dict ∈ output_files →
  not_use kwargs (parameters output_dict) = false →
  for_each output_files
    (λ file_names r,
       if not_use kwargs (parameters r) then Ok file_names
       else set_add r file_names) acc
  = Raise TypeError.
Proof.
  intros Hrecord Huse. revert acc.
  induction Hrecord as [r rs|r r' rs _ IH]; simpl; intros acc.
  - by rewrite Huse.
  - destruct (not_use kwargs (parameters r')); [by apply IH|done].
Qed.

Lemma filter_records_exn (kwargs : dict value)
    (output_files : list OutputRecord) (acc : list OutputRecord) (e : exn) :
  for_each output_files
    (λ file_names r,
       if not_use kwargs (parameters r) then Ok file_names
       else set_add r file_names) acc
  = Raise e →
  e = TypeError.
Proof.
  revert acc. induction output_files as [|r rs IH]; simpl; intros acc; [done|].
  destruct (not_use kwargs (parameters r)); [apply IH|].
  simpl. congruence.
Qed.

(** As soon as one record matches one assignment, the loops of
    [filter_from_params] raise [TypeError]. *)
Lemma filter_loop_raises (assignments : list (dict value))
    (output_files : list OutputRecord) (kwargs : dict value)
    (output_dict : OutputRecord) :
  kwargs ∈ assignments → output_dict ∈ output_files →
  not_use kwargs (parameters output_dict) = false →
  filter_loop assignments output_files = Raise TypeError.
Proof.
  intros Hkwargs Hrecord Huse. unfold filter_loop.
  generalize (@nil OutputRecord) as acc.
  induction Hkwargs as [kwargs assignments|kwargs kwargs' assignments _ IH];
    simpl; intros acc.
  - by rewrite (filter_records_raises _ _ output_dict).
  - destruct (for_each output_files _ acc) as [s|e] eqn:Hinner; simpl.
    + by apply IH.
    + by apply filter_records_exn in Hinner as ->.
Qed.

(** ** Claims about the filter engine *)

(** C1: in the scenario of the specification the registry entry for [log]
    holds the two records, in traversal order, and the record with
    [run = "1"] matches the constraint; [filter_from_params] then raises
    [TypeError] where it adds the matching record, a [dict], to a set,
    instead of returning that record. *)
Theorem filter_log_by_run_raises :
  get_all_output_files_in_tree "/work" two_logs_root (Some "log")
  = Entry [log_record "1"; log_record "2"]
  ∧ product_dict (fill_kwargs_with_lists [("run", VStr "1")])
    = Ok [[("run", VStr "1")]]
  ∧ not_use [("run", VStr "1")] (parameters (log_record "1")) = false
  ∧ not_use [("run", VStr "1")] (parameters (log_record "2")) = true
  ∧ filter_from_params [log_record "1"; log_record "2"] [("run", VStr "1")]
    = Raise TypeError.
Proof. by split_and!; vm_compute. Qed.

(** C4: the match rule holds of the inner loop ([not_use_false_iff]), and
    the record [{x: "1"}] matches the one assignment of [{z: ["9"]}], whose
    key it lacks; [filter_from_params] raises [TypeError] on adding it to
    the set instead of including it in the result. *)
Theorem filter_absent_key_raises :
  product_dict (fill_kwargs_with_lists [("z", VList [VStr "9"])])
  = Ok [[("z", VStr "9")]]
  ∧ not_use [("z", VStr "9")] (parameters x1_record) = false
  ∧ filter_from_params [x1_record] [("z", VList [VStr "9"])] = Raise TypeError.
Proof. by split_and!; vm_compute. Qed.

(** C2: a record given twice, both copies matching the constraint, is to
    come back twice, in input order; [filter_from_params] raises [TypeError]
    on adding the first copy, a [dict], to its set, and returns nothing. *)
Theorem filter_duplicate_records_raises :
  product_dict (fill_kwargs_with_lists [("run", VList [VStr "1"])])
  = Ok [[("run", VStr "1")]]
  ∧ not_use [("run", VStr "1")] (parameters (log_record "1")) = false
  ∧ filter_from_params [log_record "1"; log_record "1"]
      [("run", VList [VStr "1"])]
    = Raise TypeError.
Proof. by split_and!; vm_compute. Qed.

(** ** Paths *)

Import posixpath.

Lemma split_sep_nonempty (s : string) : split_sep s ≠ [].
Proof.
  induction s as [|c s IH]; simpl; [done|].
  destruct (is_sep c); [done|]. by destruct (split_sep s).
Qed.

Lemma split_sep_app (a b : string) :
  split_sep (a +:+ String "/" b) = split_sep a ++ split_sep b.
Proof.
  induction a as [|c a IH]; simpl; [done|].
  rewrite IH. destruct (is_sep c); [done|].
  pose proof (split_sep_nonempty a). by destruct (split_sep a).
Qed.

Lemma path_components_app (a b : string) :
  path_components (a +:+ String "/" b) = path_components a ++ path_components b.
Proof. unfold path_components. by rewrite split_sep_app, List.filter_app. Qed.

Lemma endswith_sep_inv (s : string) :
  endswith_sep s = true → ∃ s', s = s' +:+ "/".
Proof.
  induction s as [|c s IH]; simpl; [done|].
  destruct s as [|c' s].
  - unfold is_sep. intros ->%Ascii.eqb_eq. by exists "".
  - intros [s' ->]%IH. by exists (String c s').
Qed.

Lemma append_cons (x : ascii) (a b : string) :
  String x a +:+ b = String x (a +:+ b).
Proof. reflexivity. Qed.

Lemma append_assoc (a b c : string) : (a +:+ b) +:+ c = a +:+ b +:+ c.
Proof.
  induction a as [|x a IH]; [done|]. rewrite !append_cons. by rewrite IH.
Qed.

Lemma append_empty_r (a : string) : a +:+ "" = a.
Proof.
  induction a as [|x a IH]; [done|]. rewrite append_cons. by rewrite IH.
Qed.

Lemma endswith_sep_append (a b : string) :
  is_empty b = false → endswith_sep (a +:+ b) = endswith_sep b.
Proof.
  intros Hb. induction a as [|x a IH]; [done|].
  rewrite append_cons. simpl. rewrite IH.
  destruct (a +:+ b) eqn:Hab; [|done]. by destruct a, b.
Qed.

(** A component that does not start with a slash extends the path. *)
Lemma path_components_join_step (path b : string) :
  startswith_sep b = false →
  path_components (join_step path b) = path_components path ++ path_components b.
Proof.
  intros Hb. unfold join_step. rewrite Hb.
  destruct (is_empty path) eqn:Hempty; [by destruct path|].
  rewrite orb_false_l.
  destruct (endswith_sep path) eqn:Hend.
  - apply endswith_sep_inv in Hend as [s' ->].
    rewrite append_assoc. change ("/" +:+ b) with (String "/" b).
    rewrite path_components_app.
    change (s' +:+ "/") with (s' +:+ String "/" "").
    rewrite path_components_app. simpl. by rewrite app_nil_r.
  - apply path_components_app.
Qed.

Lemma path_components_join (a : string) (p : list string) :
  Forall (λ b, startswith_sep b = false) p →
  path_components (join a p) = path_components a ++ (p ≫= path_components).
Proof.
  intros Hp. revert a. unfold join.
  induction Hp as [|b p Hb _ IH]; simpl; intros a.
  - by rewrite app_nil_r.
  - by rewrite IH, path_components_join_step, <- app_assoc.
Qed.

Lemma join_rooted (a : string) (p : list string) :
  Forall (λ b, startswith_sep b = false) p → ∃ rest, join a p = a +:+ rest.
Proof.
  intros Hp. revert a. unfold join.
  induction Hp as [|b p Hb _ IH]; simpl; intros a.
  - exists "". by rewrite append_empty_r.
  - destruct (IH (join_step a b)) as [rest ->].
    unfold join_step. rewrite Hb.
    destruct (is_empty a || endswith_sep a).
    + exists (b +:+ rest). by rewrite append_assoc.
    + exists ("/" +:+ b +:+ rest). by rewrite !append_assoc.
Qed.

(** With no slash at the seams, [os.path.join] puts exactly one between
    consecutive components. *)
Lemma join_exact (a : string) (mids : list string) (last : string) :
  is_empty a = false → endswith_sep a = false →
  Forall (λ b, startswith_sep b = false ∧ is_empty b = false
               ∧ endswith_sep b = false) mids →
  startswith_sep last = false →
  join a (mids ++ [last]) = join_sep (a :: mids ++ [last]).
Proof.
  intros Ha Hend Hmids Hlast. revert a Ha Hend. unfold join.
  induction Hmids as [|b mids (Hb1 & Hb2 & Hb3) _ IH]; intros a Ha Hend.
  - simpl. unfold join_step. by rewrite Hlast, Ha, Hend.
  - simpl fold_left. unfold join_step at 2. rewrite Hb1, Ha, Hend. simpl orb.
    cbv iota. rewrite IH.
    + change ((b :: mids) ++ [last]) with (b :: (mids ++ [last])).
      destruct (mids ++ [last]) as [|m ms] eqn:Hms; [by destruct mids|].
      change (join_sep (a :: b :: m :: ms))
        with (a +:+ "/" +:+ b +:+ "/" +:+ join_sep (m :: ms)).
      change (join_sep ((a +:+ "/" +:+ b) :: m :: ms))
        with ((a +:+ "/" +:+ b) +:+ "/" +:+ join_sep (m :: ms)).
      by rewrite !append_assoc.
    + by destruct a.
    + rewrite endswith_sep_append by done.
      change ("/" +:+ b) with (String "/" b).
      simpl. by destruct b.
Qed.

Lemma param_segment_startswith (key v : string) :
  startswith_sep key = false → startswith_sep (param_segment (key, v)) = false.
Proof. by destruct key. Qed.

Lemma param_segment_nonempty (kv : string * string) :
  is_empty (param_segment kv) = false.
Proof. by destruct kv as [[|c key] v]. Qed.

Lemma param_segment_endswith (key v : string) :
  endswith_sep v = false → endswith_sep (param_segment (key, v)) = false.
Proof.
  intros Hv. unfold param_segment. simpl fst. simpl snd.
  rewrite endswith_sep_append by done.
  change ("=" +:+ v) with (String "=" v). by destruct v.
Qed.

(** With distinct parameter names, the serialized parameters are the
    significant ones, serialized, in declaration order. *)
Lemma get_serialized_parameters_fmap (task : Task) :
  NoDup (get_params task).*1 →
  get_serialized_parameters task
  = (λ kp, (kp.1, serialize kp.2 (getattr task kp.1)))
      <$> List.filter (λ kp, significant kp.2) (get_params task).
Proof.
  intros Hnd. unfold get_serialized_parameters.
  rewrite (fold_dict_set (λ kp, significant kp.2) fst
             (λ kp, serialize kp.2 (getattr task kp.1))); [done| |done].
  intros d [k param]. simpl. by destruct (significant param).
Qed.

(** ** Claims about the path deriver *)

(** C9, as the code has it: for a non-empty root, a base filename and
    parameter names that do not start with a slash, the derived path
    starts with the root, and its components are those of the root, then
    those of one segment [name=value] per significant parameter in
    declaration order, then those of the base filename; where neither the
    root nor a segment ends with a slash the path is these joined by single
    slashes; with no significant parameter it is the base filename under
    the root. *)
Theorem create_output_file_name_path (settings : gmap string string)
    (task : Task) (base_filename : string) (create_folder : bool)
    (root : string) :
  root ≠ "" →
  startswith_sep base_filename = false →
  NoDup (get_params task).*1 →
  Forall (λ kp, significant kp.2 = true → startswith_sep kp.1 = false)
    (get_params task) →
  let significant_params :=
    List.filter (λ kp, significant kp.2) (get_params task) in
  let segments :=
    (λ kp, kp.1 +:+ "=" +:+ serialize kp.2 (getattr task kp.1))
      <$> significant_params in
  let path :=
    (create_output_file_name settings task base_filename create_folder
       (Some root)).2 in
  path_components path
  = path_components root ++ (segments ≫= path_components)
    ++ path_components base_filename
  ∧ (∃ rest, path = root +:+ rest)
  ∧ (endswith_sep root = false →
     Forall (λ segment, endswith_sep segment = false) segments →
     path = join_sep (root :: segments ++ [base_filename]))
  ∧ (significant_params = [] →
     path = if endswith_sep root then root +:+ base_filename
            else root +:+ "/" +:+ base_filename).
Proof.
  intros Hroot Hbase Hnd Hkeys significant_params segments path.
  assert (Hnonempty : is_empty root = false) by by destruct root.
  assert (Hpath : path = join root (segments ++ [base_filename])).
  { subst path. unfold create_output_file_name. rewrite Hnonempty.
    simpl snd. rewrite get_serialized_parameters_fmap by done.
    fold significant_params. do 2 f_equal. subst segments.
    change (map param_segment ?l) with (param_segment <$> l).
    by rewrite <- list_fmap_compose. }
  assert (Hsegments : Forall (λ b, startswith_sep b = false
                                   ∧ is_empty b = false) segments).
  { subst segments significant_params. apply Forall_fmap, Forall_forall.
    intros [key param] Hin%list_elem_of_In%filter_In. simpl in *.
    destruct Hin as [Hin%list_elem_of_In Hsig].
    rewrite Forall_forall in Hkeys. specialize (Hkeys _ Hin Hsig).
    split.
    - by apply (param_segment_startswith key).
    - apply (param_segment_nonempty (key, _)). }
  assert (Hparts : Forall (λ b, startswith_sep b = false)
                     (segments ++ [base_filename])).
  { apply Forall_app. split; [|by constructor].
    eapply Forall_impl; [exact Hsegments|]. by intros b [? _]. }
  rewrite Hpath. split_and!.
  - rewrite path_components_join by done.
    rewrite bind_app. simpl. by rewrite app_nil_r.
  - by apply join_rooted.
  - intros Hend Hends. apply join_exact; [done|done| |done].
    apply Forall_forall. intros b Hb.
    rewrite Forall_forall in Hsegments, Hends.
    destruct (Hsegments _ Hb). split_and!; [done|done|by apply Hends].
  - intros Hnone. subst segments. rewrite Hnone. simpl.
    unfold join. simpl. unfold join_step.
    by rewrite Hbase, Hnonempty.
Qed.

Lemma create_output_file_name_path_witness :
  "/out" ≠ ""
  ∧ startswith_sep "hist.root" = false
  ∧ NoDup (get_params hist_task).*1
  ∧ Forall (λ kp, significant kp.2 = true → startswith_sep kp.1 = false)
      (get_params hist_task)
  ∧ (create_output_file_name ∅ hist_task "hist.root" true (Some "/out")).2
    = "/out/exp=1003/run=5/hist.root".
Proof.
  assert (Hroot : "/out" ≠ "") by discriminate.
  assert (Hbase : startswith_sep "hist.root" = false) by reflexivity.
  assert (Hnd : NoDup (get_params hist_task).*1) by decide_true.
  assert (Hkeys : Forall (λ kp, significant kp.2 = true
                                → startswith_sep kp.1 = false)
                    (get_params hist_task)).
  { repeat (constructor; [intros _; reflexivity|]). constructor. }
  destruct (create_output_file_name_path ∅ hist_task "hist.root" true "/out"
              Hroot Hbase Hnd Hkeys) as (_ & _ & Hexact & _).
  split_and!; [exact Hroot|exact Hbase|exact Hnd|exact Hkeys|].
  rewrite Hexact; [reflexivity|reflexivity|].
  repeat (constructor; [reflexivity|]). constructor.
Defined.

(** C9, as stated, fails: a base filename that starts with a slash replaces
    all that precedes it, so the path is neither under the root nor made of
    the parameter segments. *)
Lemma create_output_file_name_absolute_base :
  (create_output_file_name ∅ hist_task "/hist.root" false (Some "/out")).2
  = "/hist.root"
  ∧ path_components
      (create_output_file_name ∅ hist_task "/hist.root" false (Some "/out")).2
    ≠ ["out"; "exp=1003"; "run=5"; "hist.root"].
Proof. split; [reflexivity|]. vm_compute. discriminate. Qed.

(** The scenario of the specification: parameters [exp = 1003] and
    [run = 5] under [/out]; the folder of the file is created on request. *)
Example create_output_file_name_hist :
  create_output_file_name ∅ hist_task "hist.root" true (Some "/out")
  = ([Makedirs "/out/exp=1003/run=5"], "/out/exp=1003/run=5/hist.root").
Proof. reflexivity. Qed.

(** A task without significant parameters, with the root taken from the
    settings and with their default. *)
Example create_output_file_name_no_parameter :
  create_output_file_name {["result_path" := "/data"]} two_logs_root
    "summary.txt" false None
  = ([], "/data/summary.txt")
  ∧ create_output_file_name ∅ two_logs_root "summary.txt" false (Some "")
    = ([], "./summary.txt").
Proof. split; reflexivity. Qed.

(** The registry of the scenario of the specification: one record under
    [hist], with the path derived above. *)
Example registry_hist :
  get_all_output_files_in_tree "/work" hist_task (Some "hist")
  = Entry [ {| parameters := [("exp", "1003"); ("run", "5")];
              file_name := "/out/exp=1003/run=5/hist.root" |} ].
Proof. reflexivity. Qed.

(** * Further properties *)

(** ** The task tree walker *)

Lemma Task_ind (P : Task → Prop) :
  (∀ family params attrs ds outputs,
     Forall P ds → P (mkTask family params attrs ds outputs)) →
  ∀ task, P task.
Proof.
  intros Hnode. fix IH 1. intros [family params attrs ds outputs].
  apply Hnode. induction ds as [|d ds IHds]; constructor.
  - exact (IH d).
  - exact IHds.
Qed.

Lemma elem_of_flat_map {A B} (f : A → list B) (l : list A) (y : B) :
  y ∈ flat_map f l ↔ ∃ x, x ∈ l ∧ y ∈ f x.
Proof.
  rewrite list_elem_of_In, in_flat_map. split.
  - intros (x & Hx & Hy). exists x. by rewrite !list_elem_of_In.
  - intros (x & Hx & Hy). exists x. by rewrite <- !list_elem_of_In.
Qed.

Lemma task_iterator_unfold (task : Task) :
  task_iterator task = task :: flat_map task_iterator (deps task).
Proof. by destruct task. Qed.

(** X1: the walk yields exactly the tasks that can be reached from the
    root along dependency edges, the root included. *)
Theorem task_iterator_reachable (root task : Task) :
  task ∈ task_iterator root ↔ reachable root task.
Proof.
  split.
  - revert task. induction root as [family params attrs ds outputs IH]
      using Task_ind.
    intros task. rewrite task_iterator_unfold. simpl.
    intros [->|(d & Hd & Htask)%elem_of_flat_map]%elem_of_cons.
    + constructor.
    + apply (reachable_dep _ d); [done|].
      rewrite Forall_forall in IH. by apply IH.
  - induction 1 as [root|root d task Hd _ IH].
    + rewrite task_iterator_unfold. left.
    + rewrite task_iterator_unfold. right.
      apply elem_of_flat_map. by exists d.
Qed.

Lemma task_iterator_dependency (task dep : Task) :
  dep ∈ deps task →
  ∃ before after,
    task_iterator task = task :: before ++ task_iterator dep ++ after.
Proof.
  intros Hdep. rewrite task_iterator_unfold.
  apply list_elem_of_split in Hdep as (ds1 & ds2 & ->).
  exists (flat_map task_iterator ds1), (flat_map task_iterator ds2).
  by rewrite flat_map_app.
Qed.

(** X2: the walk is depth first: the whole walk of every task reachable
    from the root is one unbroken stretch of the walk of the root. *)
Theorem task_iterator_subtree_block (root task : Task) :
  reachable root task →
  ∃ before after,
    task_iterator root = before ++ task_iterator task ++ after.
Proof.
  induction 1 as [root|root d task Hd _ (b' & a' & IH)].
  - exists [], []. by rewrite app_nil_r.
  - destruct (task_iterator_dependency root d Hd) as (b & a & ->).
    exists (root :: b ++ b'), (a' ++ a). rewrite IH.
    simpl. f_equal. by rewrite <- !app_assoc.
Qed.

Lemma task_iterator_subtree_block_witness :
  reachable two_logs_root (log_task "2")
  ∧ ∃ before after,
      task_iterator two_logs_root
      = before ++ task_iterator (log_task "2") ++ after.
Proof.
  assert (Hreach : reachable two_logs_root (log_task "2")).
  { apply (reachable_dep _ (log_task "2")); [simpl; elem_of_items|].
    constructor. }
  split; [exact Hreach|].
  exact (task_iterator_subtree_block two_logs_root (log_task "2") Hreach).
Defined.

(** ** More on the registry builder *)

Lemma defaultdict_getitem_append
    (all_output_files : gmap string (list OutputRecord))
    (file_key key : string) (record : OutputRecord) :
  defaultdict_getitem (defaultdict_append all_output_files file_key record) key
  = if String.eqb file_key key
    then defaultdict_getitem all_output_files key ++ [record]
    else defaultdict_getitem all_output_files key.
Proof.
  unfold defaultdict_getitem, defaultdict_append.
  destruct (String.eqb_spec file_key key) as [->|Hne].
  - by rewrite lookup_insert_eq.
  - by rewrite lookup_insert_ne.
Qed.

Lemma defaultdict_append_fold_getitem (mk : string → OutputRecord)
    (items : dict string) (acc : gmap string (list OutputRecord))
    (key : string) :
  NoDup items.*1 →
  defaultdict_getitem
    (fold_left (λ all_output_files kv,
                  defaultdict_append all_output_files kv.1 (mk kv.2))
               items acc) key
  = defaultdict_getitem acc key
    ++ match dict_get key items with
       | Some file_name => [mk file_name]
       | None => []
       end.
Proof.
  revert acc. induction items as [|[k f] items IH]; simpl; intros acc Hnd.
  - by rewrite app_nil_r.
  - apply NoDup_cons in Hnd as [Hk Hnd].
    rewrite IH by done. rewrite defaultdict_getitem_append.
    destruct (String.eqb_spec k key) as [->|Hne]; [|done].
    apply dict_get_None in Hk. rewrite Hk. by rewrite <- app_assoc.
Qed.

Lemma all_output_files_fold_getitem (cwd : string) (tasks : list Task)
    (acc : gmap string (list OutputRecord)) (key : string) :
  (∀ task output_dict,
     task ∈ tasks → get_output_file_names task = Some output_dict →
     NoDup output_dict.*1) →
  defaultdict_getitem
    (fold_left
       (λ all_output_files task,
          match get_output_file_names task with
          | None => all_output_files
          | Some output_dict =>
              if dict_is_empty output_dict then all_output_files
              else
                fold_left
                  (λ all_output_files kv,
                     defaultdict_append all_output_files kv.1
                       {| parameters := task_get_serialized_parameters task;
                          file_name := posixpath.abspath cwd kv.2 |})
                  output_dict all_output_files
          end)
       tasks acc) key
  = defaultdict_getitem acc key ++ omap (declared_record cwd key) tasks.
Proof.
  revert acc. induction tasks as [|task tasks IH]; simpl; intros acc Hnd.
  - by rewrite app_nil_r.
  - rewrite IH by (intros t d Ht; apply Hnd; by right).
    unfold declared_record at 2.
    destruct (get_output_file_names task) as [output_dict|] eqn:Hout; [|done].
    destruct output_dict as [|kv output_dict]; [done|].
    cbv [dict_is_empty].
    rewrite (defaultdict_append_fold_getitem
               (λ f, {| parameters := task_get_serialized_parameters task;
                        file_name := posixpath.abspath cwd f |}))
      by (apply (Hnd task); [left|done]).
    rewrite <- app_assoc. f_equal.
    by destruct (dict_get key (kv :: output_dict)).
Qed.

(** X3: the entry the registry builder returns for a key holds one record
    per task that declares the key, in the order of the walk (a task
    reached twice contributes twice), each with that task's serialized
    parameters and the absolute form of the declared file name. *)
Theorem registry_entry_in_walk_order (cwd : string) (root_module : Task)
    (key : string) :
  key ≠ "" →
  (∀ task output_dict,
     task ∈ task_iterator root_module →
     get_output_file_names task = Some output_dict →
     NoDup output_dict.*1) →
  get_all_output_files_in_tree cwd root_module (Some key)
  = Entry (omap (declared_record cwd key) (task_iterator root_module)).
Proof.
  intros Hkey Hnd. unfold get_all_output_files_in_tree, key_truthy.
  destruct key as [|c key]; [done|]. simpl posixpath.is_empty. cbv iota.
  f_equal. unfold all_output_files_in_tree.
  by rewrite all_output_files_fold_getitem.
Qed.

Lemma registry_entry_in_walk_order_witness :
  "log" ≠ ""
  ∧ get_all_output_files_in_tree "/work" two_logs_root (Some "log")
    = Entry [log_record "1"; log_record "2"].
Proof.
  assert (Hkey : "log" ≠ "") by discriminate.
  split; [exact Hkey|].
  rewrite (registry_entry_in_walk_order "/work" two_logs_root "log" Hkey).
  - reflexivity.
  - intros task output_dict Hin Hout. vm_compute in Hin.
    repeat (apply elem_of_cons in Hin as [->|Hin];
            [vm_compute in Hout; try discriminate Hout;
             injection Hout as <-; decide_true|]).
    by apply elem_of_nil in Hin.
Defined.

Lemma normpath_absolute (path : string) :
  posixpath.startswith_sep path = true →
  posixpath.startswith_sep (posixpath.normpath path) = true.
Proof.
  intros Habs. unfold posixpath.normpath.
  destruct path as [|c1 path]; [done|]. simpl in Habs.
  cbv [posixpath.is_empty].
  assert (Hslashes : ∃ n, posixpath.initial_slashes (String c1 path) = S n).
  { destruct path as [|c2 [|c3 path]]; simpl; rewrite Habs.
    - by exists 0.
    - destruct (posixpath.is_sep c2); by eexists.
    - destruct (posixpath.is_sep c2 && negb (posixpath.is_sep c3)); by eexists. }
  destruct Hslashes as [n ->]. done.
Qed.

Lemma abspath_absolute (cwd path : string) :
  posixpath.startswith_sep cwd = true →
  posixpath.startswith_sep (posixpath.abspath cwd path) = true.
Proof.
  intros Hcwd. unfold posixpath.abspath. apply normpath_absolute.
  destruct (posixpath.startswith_sep path) eqn:Hpath; [done|].
  unfold posixpath.join, posixpath.join_step. simpl. rewrite Hpath.
  destruct cwd as [|c cwd]; [done|]. simpl in Hcwd.
  by destruct (_ || _).
Qed.

Lemma all_output_files_in_tree_Forall (P : OutputRecord → Prop)
    (cwd : string) (root_module : Task) (key : string)
    (records : list OutputRecord) :
  (∀ task file_name,
     P {| parameters := task_get_serialized_parameters task;
          file_name := posixpath.abspath cwd file_name |}) →
  all_output_files_in_tree cwd root_module !! key = Some records →
  Forall P records.
Proof.
  intros HP. unfold all_output_files_in_tree.
  generalize (task_iterator root_module) as tasks.
  assert (Hacc : map_Forall (λ _ rs, Forall P rs)
                   (∅ : gmap string (list OutputRecord)))
    by apply map_Forall_empty.
  revert Hacc. generalize (∅ : gmap string (list OutputRecord)) as acc.
  intros acc Hacc tasks Hlookup. revert acc Hacc Hlookup.
  induction tasks as [|task tasks IH]; simpl; intros acc Hacc Hlookup.
  - by apply (Hacc key).
  - refine (IH _ _ Hlookup). clear Hlookup IH.
    destruct (get_output_file_names task) as [output_dict|]; [|done].
    destruct (dict_is_empty output_dict); [done|].
    revert acc Hacc.
    induction output_dict as [|[k f] output_dict IHd]; simpl; intros acc Hacc;
      [done|].
    apply IHd. unfold defaultdict_append. apply map_Forall_insert_2; [|done].
    apply Forall_app. split; [|by repeat constructor].
    destruct (acc !! k) as [rs|] eqn:Hk; simpl; [by apply (Hacc k)|constructor].
Qed.

(** X4: in a process whose working directory is an absolute path, every
    file name the registry holds is absolute, whatever the tasks declare. *)
Theorem registry_file_names_absolute (cwd : string) (root_module : Task)
    (key : string) (records : list OutputRecord) :
  posixpath.startswith_sep cwd = true →
  get_all_output_files_in_tree cwd root_module (Some key) = Entry records →
  Forall (λ r, posixpath.startswith_sep (file_name r) = true) records.
Proof.
  intros Hcwd. unfold get_all_output_files_in_tree.
  destruct (key_truthy (Some key)) as [k|]; [|done].
  intros [= <-]. unfold defaultdict_getitem.
  destruct (all_output_files_in_tree cwd root_module !! k) as [rs|] eqn:Hk;
    simpl; [|constructor].
  apply (all_output_files_in_tree_Forall _ cwd root_module k); [|done].
  intros task f. simpl. by apply abspath_absolute.
Qed.

Lemma registry_file_names_absolute_witness :
  posixpath.startswith_sep "/work" = true
  ∧ get_all_output_files_in_tree "/work" two_logs_root (Some "log")
    = Entry [log_record "1"; log_record "2"]
  ∧ Forall (λ r, posixpath.startswith_sep (file_name r) = true)
      [log_record "1"; log_record "2"].
Proof.
  assert (Hcwd : posixpath.startswith_sep "/work" = true) by reflexivity.
  assert (Hentry : get_all_output_files_in_tree "/work" two_logs_root
                     (Some "log")
                   = Entry [log_record "1"; log_record "2"]) by reflexivity.
  split_and!; [exact Hcwd|exact Hentry|].
  exact (registry_file_names_absolute "/work" two_logs_root "log" _
           Hcwd Hentry).
Defined.

(** ** More on the path deriver *)

Lemma fold_left_ext_in {A B} (f g : B → A → B) (l : list A) (acc : B) :
  (∀ b x, x ∈ l → f b x = g b x) → fold_left f l acc = fold_left g l acc.
Proof.
  revert acc. induction l as [|x l IH]; simpl; intros acc Hfg; [done|].
  rewrite Hfg by left. apply IH. intros b y Hy. apply Hfg. by right.
Qed.

(** X5: the derived file name depends on a task only through its
    significant parameters: two tasks with the same parameter descriptors
    and the same values of the significant ones get the same name, whatever
    their insignificant values, families, dependencies and outputs. *)
Theorem create_output_file_name_significant_only
    (settings : gmap string string) (task1 task2 : Task)
    (base_filename : string) (create_folder : bool)
    (result_path : option string) :
  get_params task1 = get_params task2 →
  (∀ key parameter,
     (key, parameter) ∈ get_params task1 → significant parameter = true →
     getattr task1 key = getattr task2 key) →
  create_output_file_name settings task1 base_filename create_folder
    result_path
  = create_output_file_name settings task2 base_filename create_folder
      result_path.
Proof.
  intros Hparams Hvalues.
  assert (Hsame : get_serialized_parameters task1
                  = get_serialized_parameters task2).
  { unfold get_serialized_parameters. rewrite <- Hparams.
    apply fold_left_ext_in. intros d [key parameter] Hin. simpl.
    destruct (significant parameter) eqn:Hsig; simpl; [|done].
    by rewrite (Hvalues key parameter). }
  unfold create_output_file_name. by rewrite Hsame.
Qed.

Lemma create_output_file_name_significant_only_witness :
  get_params hist_task = get_params hist_task_again
  ∧ create_output_file_name ∅ hist_task "hist.root" true (Some "/out")
    = create_output_file_name ∅ hist_task_again "hist.root" true (Some "/out").
Proof.
  assert (Hparams : get_params hist_task = get_params hist_task_again)
    by reflexivity.
  split; [exact Hparams|].
  apply (create_output_file_name_significant_only _ _ _ _ _ _ Hparams).
  intros key parameter Hin Hsig. simpl in Hin.
  repeat (apply elem_of_cons in Hin as [Hin|Hin];
          [injection Hin as -> ->; first [reflexivity|discriminate Hsig]|]).
  by apply elem_of_nil in Hin.
Defined.

Lemma no_sep_append (a b : string) :
  no_sep (a +:+ b) = no_sep a && no_sep b.
Proof.
  induction a as [|c a IH]; [done|]. rewrite append_cons. simpl.
  rewrite IH. by rewrite andb_assoc.
Qed.

Lemma split_sep_no_sep (s : string) : no_sep s = true → split_sep s = [s].
Proof.
  induction s as [|c s IH]; simpl; [done|].
  intros [Hc Hs]%andb_true_iff. apply negb_true_iff in Hc. rewrite Hc.
  by rewrite IH.
Qed.

Lemma path_components_no_sep (s : string) :
  no_sep s = true → is_empty s = false → path_components s = [s].
Proof.
  intros Hs Hne. unfold path_components. rewrite split_sep_no_sep by done.
  simpl. by rewrite Hne.
Qed.

Lemma no_sep_startswith (s : string) :
  no_sep s = true → startswith_sep s = false.
Proof.
  destruct s as [|c s]; simpl; [done|].
  by intros [Hc%negb_true_iff _]%andb_true_iff.
Qed.

Lemma param_segment_no_sep (kv : string * string) :
  no_sep kv.1 = true → no_sep kv.2 = true → no_sep (param_segment kv) = true.
Proof.
  intros Hk Hv. unfold param_segment.
  rewrite !no_sep_append, Hk, Hv. done.
Qed.

Lemma param_segment_inj (key v1 v2 : string) :
  param_segment (key, v1) = param_segment (key, v2) → v1 = v2.
Proof.
  unfold param_segment. simpl. intros Heq%(inj (String.append key)).
  by injection Heq.
Qed.

Lemma param_segments_inj (sp1 sp2 : dict string) :
  sp1.*1 = sp2.*1 → param_segment <$> sp1 = param_segment <$> sp2 →
  sp1 = sp2.
Proof.
  revert sp2. induction sp1 as [|[k1 v1] sp1 IH];
    intros [|[k2 v2] sp2]; csimpl; try done.
  intros [= -> Hkeys] [= Hseg Hrest].
  apply param_segment_inj in Hseg as ->. f_equal. by apply IH.
Qed.

(** The components of a path derived from slash-free parameters. *)
Lemma path_components_of_segments (root base_filename : string)
    (serialized_parameters : dict string) :
  startswith_sep base_filename = false →
  Forall (λ kv, no_sep kv.1 = true ∧ no_sep kv.2 = true)
    serialized_parameters →
  path_components
    (join root ((param_segment <$> serialized_parameters) ++ [base_filename]))
  = path_components root ++ (param_segment <$> serialized_parameters)
    ++ path_components base_filename.
Proof.
  intros Hbase Hfree. rewrite path_components_join.
  - f_equal. rewrite bind_app. simpl. rewrite app_nil_r. f_equal.
    induction Hfree as [|kv sp [Hk Hv] _ IH]; [done|].
    csimpl. rewrite IH.
    rewrite path_components_no_sep;
      [done|by apply param_segment_no_sep|apply param_segment_nonempty].
  - apply Forall_app. split; [|by constructor].
    apply Forall_fmap. eapply Forall_impl; [exact Hfree|].
    intros kv [Hk Hv]. by apply no_sep_startswith, param_segment_no_sep.
Qed.

(** X6: the derived name loses nothing: under one root and base filename,
    two tasks with the same significant parameter names, whose names and
    serialized values hold no slash, get the same file name only if their
    serialized values are the same. *)
Theorem create_output_file_name_injective (settings : gmap string string)
    (task1 task2 : Task) (base_filename : string) (create_folder : bool)
    (root : string) :
  root ≠ "" →
  startswith_sep base_filename = false →
  (get_serialized_parameters task1).*1 = (get_serialized_parameters task2).*1 →
  Forall (λ kv, no_sep kv.1 = true ∧ no_sep kv.2 = true)
    (get_serialized_parameters task1) →
  Forall (λ kv, no_sep kv.1 = true ∧ no_sep kv.2 = true)
    (get_serialized_parameters task2) →
  (create_output_file_name settings task1 base_filename create_folder
     (Some root)).2
  = (create_output_file_name settings task2 base_filename create_folder
       (Some root)).2 →
  get_serialized_parameters task1 = get_serialized_parameters task2.
Proof.
  intros Hroot Hbase Hkeys Hfree1 Hfree2.
  unfold create_output_file_name. simpl snd.
  assert (Hnonempty : is_empty root = false) by by destruct root.
  rewrite Hnonempty.
  change (map param_segment ?l) with (param_segment <$> l).
  intros Hpath%(f_equal path_components).
  rewrite !path_components_of_segments in Hpath by done.
  apply app_inv_head, app_inv_tail in Hpath.
  by apply param_segments_inj.
Qed.

Lemma create_output_file_name_injective_witness :
  "/out" ≠ ""
  ∧ (create_output_file_name ∅ hist_task "hist.root" false (Some "/out")).2
    = (create_output_file_name ∅ hist_task_again "hist.root" false
         (Some "/out")).2
  ∧ get_serialized_parameters hist_task
    = get_serialized_parameters hist_task_again.
Proof.
  assert (Hroot : "/out" ≠ "") by discriminate.
  assert (Hpath :
    (create_output_file_name ∅ hist_task "hist.root" false (Some "/out")).2
    = (create_output_file_name ∅ hist_task_again "hist.root" false
         (Some "/out")).2) by reflexivity.
  split_and!; [exact Hroot|exact Hpath|].
  apply (create_output_file_name_injective ∅ hist_task hist_task_again
           "hist.root" false "/out" Hroot); [reflexivity|reflexivity| | |exact Hpath].
  - repeat (constructor; [split; reflexivity|]). constructor.
  - repeat (constructor; [split; reflexivity|]). constructor.
Defined.

Lemma dir_head_no_sep (s : string) : no_sep s = true → dir_head s = "".
Proof.
  induction s as [|c s IH]; simpl; [done|].
  intros [Hc%negb_true_iff Hs]%andb_true_iff. by rewrite IH, Hc.
Qed.

(** A slash-free ending does not move the last slash. *)
Lemma dir_head_append_no_sep (a s : string) :
  no_sep s = true → dir_head (a +:+ s) = dir_head a.
Proof.
  intros Hs. induction a as [|c a IH].
  - by apply dir_head_no_sep.
  - rewrite append_cons. simpl. by rewrite IH.
Qed.

Lemma dir_head_sep (a : string) : dir_head (a +:+ "/") = a +:+ "/".
Proof.
  induction a as [|c a IH]; [done|].
  rewrite append_cons. simpl. rewrite IH. by destruct a.
Qed.

Lemma rstrip_sep_sep (a : string) : rstrip_sep (a +:+ "/") = rstrip_sep a.
Proof.
  induction a as [|c a IH]; [done|].
  rewrite append_cons. simpl. by rewrite IH.
Qed.

Lemma rstrip_sep_id (a : string) : endswith_sep a = false → rstrip_sep a = a.
Proof.
  induction a as [|c a IH]; [done|]. destruct a as [|c' a].
  - simpl. by intros ->.
  - intros Hend. change (rstrip_sep (String c (String c' a)))
      with (match rstrip_sep (String c' a) with
            | EmptyString => if is_sep c then "" else String c ""
            | r => String c r
            end).
    by rewrite IH.
Qed.

(** The folder of a file placed under a path that does not end with a
    slash is that path. *)
Lemma dirname_file_under (folder file : string) :
  is_empty folder = false → endswith_sep folder = false →
  no_sep file = true →
  dirname (folder +:+ "/" +:+ file) = folder.
Proof.
  intros Hne Hend Hfile. unfold dirname.
  rewrite <- append_assoc, dir_head_append_no_sep by done.
  rewrite dir_head_sep, rstrip_sep_sep, rstrip_sep_id by done.
  by rewrite Hne.
Qed.

Lemma join_sep_snoc (comps : list string) (comp : string) :
  comps ≠ [] → join_sep (comps ++ [comp]) = join_sep comps +:+ "/" +:+ comp.
Proof.
  induction comps as [|c comps IH]; [done|]. intros _.
  destruct comps as [|c' comps]; [done|].
  change (join_sep ((c :: c' :: comps) ++ [comp]))
    with (c +:+ "/" +:+ join_sep ((c' :: comps) ++ [comp])).
  rewrite IH by done.
  change (join_sep (c :: c' :: comps))
    with (c +:+ "/" +:+ join_sep (c' :: comps)).
  by rewrite !append_assoc.
Qed.

Lemma endswith_sep_cons (c : ascii) (s : string) :
  is_empty s = false → endswith_sep (String c s) = endswith_sep s.
Proof. by destruct s. Qed.

Lemma join_sep_endswith (comps : list string) :
  comps ≠ [] →
  Forall (λ comp, is_empty comp = false ∧ endswith_sep comp = false) comps →
  is_empty (join_sep comps) = false ∧ endswith_sep (join_sep comps) = false.
Proof.
  intros Hne Hall. induction Hall as [|c comps [Hc1 Hc2] Hall IH]; [done|].
  destruct comps as [|c' comps]; [done|].
  change (join_sep (c :: c' :: comps))
    with (c +:+ "/" +:+ join_sep (c' :: comps)).
  destruct IH as [IH1 IH2]; [done|]. split.
  - by destruct c.
  - rewrite endswith_sep_append by done.
    change ("/" +:+ ?x) with (String "/" x).
    rewrite endswith_sep_cons by done. exact IH2.
Qed.

(** X7: with [create_folder] set, the one folder made is the root
    followed by the parameter segments, and the file lies directly in it,
    when the root and the segments do not end with a slash and the base
    filename holds none. *)
Theorem create_output_file_name_folder (settings : gmap string string)
    (task : Task) (base_filename root : string) :
  root ≠ "" → endswith_sep root = false →
  no_sep base_filename = true →
  NoDup (get_params task).*1 →
  Forall (λ kp, significant kp.2 = true →
                startswith_sep kp.1 = false
                ∧ endswith_sep (serialize kp.2 (getattr task kp.1)) = false)
    (get_params task) →
  let segments :=
    (λ kp, kp.1 +:+ "=" +:+ serialize kp.2 (getattr task kp.1))
      <$> List.filter (λ kp, significant kp.2) (get_params task) in
  create_output_file_name settings task base_filename true (Some root)
  = ([Makedirs (join_sep (root :: segments))],
     join_sep (root :: segments) +:+ "/" +:+ base_filename).
Proof.
  intros Hroot Hend Hbase Hnd Hparams segments.
  assert (Hnonempty : is_empty root = false) by by destruct root.
  assert (Hsegments :
    Forall (λ b, startswith_sep b = false ∧ is_empty b = false
                 ∧ endswith_sep b = false) segments).
  { subst segments. apply Forall_fmap, Forall_forall.
    intros [key param] Hin%list_elem_of_In%filter_In. simpl in *.
    destruct Hin as [Hin%list_elem_of_In Hsig].
    rewrite Forall_forall in Hparams.
    destruct (Hparams _ Hin Hsig) as [Hstart Hvalue]. split_and!.
    - by apply (param_segment_startswith key).
    - apply (param_segment_nonempty (key, _)).
    - by apply (param_segment_endswith key). }
  assert (Hname :
    (create_output_file_name settings task base_filename true (Some root)).2
    = join_sep (root :: segments) +:+ "/" +:+ base_filename).
  { unfold create_output_file_name. rewrite Hnonempty. simpl snd.
    rewrite get_serialized_parameters_fmap by done.
    change (map param_segment ?l) with (param_segment <$> l).
    rewrite <- list_fmap_compose.
    change (_ <$> List.filter _ (get_params task)) with segments.
    rewrite join_exact; [|done|done|done|by apply no_sep_startswith].
    change (root :: segments ++ [base_filename])
      with ((root :: segments) ++ [base_filename]).
    by rewrite join_sep_snoc. }
  assert (Hshape :
    create_output_file_name settings task base_filename true (Some root)
    = ([Makedirs
          (dirname (create_output_file_name settings task base_filename true
                      (Some root)).2)],
       (create_output_file_name settings task base_filename true
          (Some root)).2)) by reflexivity.
  rewrite Hshape, Hname.
  assert (Hfolder : is_empty (join_sep (root :: segments)) = false
                    ∧ endswith_sep (join_sep (root :: segments)) = false).
  { apply join_sep_endswith; [done|]. constructor; [done|].
    eapply Forall_impl; [exact Hsegments|]. by intros b (_ & ? & ?). }
  destruct Hfolder. by rewrite dirname_file_under.
Qed.

Lemma create_output_file_name_folder_witness :
  "/out" ≠ ""
  ∧ NoDup (get_params hist_task).*1
  ∧ create_output_file_name ∅ hist_task "hist.root" true (Some "/out")
    = ([Makedirs "/out/exp=1003/run=5"], "/out/exp=1003/run=5/hist.root").
Proof.
  assert (Hroot : "/out" ≠ "") by discriminate.
  assert (Hnd : NoDup (get_params hist_task).*1) by decide_true.
  split_and!; [exact Hroot|exact Hnd|].
  rewrite (create_output_file_name_folder ∅ hist_task "hist.root" "/out"
             Hroot); [reflexivity|reflexivity|reflexivity|exact Hnd|].
  repeat (constructor; [intros _; split; reflexivity|]). constructor.
Defined.

(** ** Log files *)

Lemma join_step_suffix (path stem suffix : string) :
  startswith_sep suffix = false →
  join_step path (stem +:+ suffix) = join_step path stem +:+ suffix.
Proof.
  intros Hsuffix. unfold join_step.
  assert (Hstart : startswith_sep (stem +:+ suffix) = startswith_sep stem)
    by by destruct stem.
  rewrite Hstart. destruct (startswith_sep stem); [done|].
  destruct (is_empty path || endswith_sep path); by rewrite !append_assoc.
Qed.

Lemma join_step_nonempty (path b : string) :
  is_empty path = false → is_empty (join_step path b) = false.
Proof.
  intros Hpath. unfold join_step.
  destruct (startswith_sep b) eqn:Hb; [by destruct b|].
  destruct (is_empty path || endswith_sep path); by destruct path.
Qed.

Lemma join_nonempty (a : string) (p : list string) :
  is_empty a = false → is_empty (join a p) = false.
Proof.
  revert a. unfold join. induction p as [|b p IH]; simpl; intros a Ha; [done|].
  by apply IH, join_step_nonempty.
Qed.

Lemma startswith_sep_has_sep (s : string) :
  startswith_sep s = true → no_sep s = false.
Proof. destruct s as [|c s]; simpl; [done|]. by intros ->. Qed.

Lemma endswith_sep_has_sep (s : string) :
  endswith_sep s = true → no_sep s = false.
Proof.
  intros [s' ->]%endswith_sep_inv. rewrite no_sep_append.
  apply andb_false_iff. by right.
Qed.

(** Joined to a path that is not empty, a component leaves a slash in the
    result. *)
Lemma join_step_has_sep (path b : string) :
  is_empty path = false → no_sep (join_step path b) = false.
Proof.
  intros Hpath. unfold join_step.
  destruct (startswith_sep b) eqn:Hb; [by apply startswith_sep_has_sep|].
  rewrite Hpath, orb_false_l.
  destruct (endswith_sep path) eqn:Hend; rewrite no_sep_append.
  - by rewrite endswith_sep_has_sep.
  - apply andb_false_iff. right.
    change ("/" +:+ b) with (String "/" b). done.
Qed.

Lemma dir_head_has_sep (s : string) :
  no_sep s = false → is_empty (dir_head s) = false.
Proof.
  induction s as [|c s IH]; simpl; [done|].
  destruct (is_sep c) eqn:Hc; simpl.
  - intros _. by destruct (dir_head s).
  - intros Hs%IH. by destruct (dir_head s).
Qed.

Lemma dirname_has_sep (s : string) :
  no_sep s = false → is_empty (dirname s) = false.
Proof.
  intros Hs%dir_head_has_sep. unfold dirname.
  by destruct (is_empty (rstrip_sep (dir_head s))) eqn:Hstrip.
Qed.

(** X8: [get_log_files] makes one folder, the same for both files, and
    returns two names that are one stem, the name derived for the task's
    family as base filename under the log folder, followed by [_stdout] and
    by [_stderr], so never the same name twice; this when the folder of the
    names is not the empty path, as it is whenever the log folder is not
    empty. When the folder is the empty path, it raises [FileNotFoundError]
    from the first [os.makedirs] and returns nothing. *)
Theorem get_log_files_names (settings : gmap string string) (script : string)
    (task : Task) :
  ∃ log_folder stem folder,
    log_folder
    = get_setting settings "log_folder" (join (dirname script) ["logs"])
    ∧ stem = (create_output_file_name settings task (get_task_family task)
                false (Some log_folder)).2
    ∧ folder = dirname (stem +:+ "_stdout")
    ∧ get_log_files settings script task
      = (if is_empty folder then Failed FileNotFoundError
         else Done ([Makedirs folder; Makedirs folder],
                    (stem +:+ "_stdout", stem +:+ "_stderr")))
    ∧ stem +:+ "_stdout" ≠ stem +:+ "_stderr"
    ∧ (log_folder ≠ "" → is_empty folder = false).
Proof.
  eexists _, _, _. split; [reflexivity|]. split; [reflexivity|].
  split; [reflexivity|].
  set (log_folder := get_setting settings "log_folder"
                       (join (dirname script) ["logs"])).
  set (stem := (create_output_file_name settings task (get_task_family task)
                  false (Some log_folder)).2).
  assert (Hcall : ∀ suffix, startswith_sep suffix = false →
    create_output_file_name settings task
      (get_task_family task +:+ suffix) true (Some log_folder)
    = ([Makedirs (dirname (stem +:+ suffix))], stem +:+ suffix)).
  { intros suffix Hsuffix. subst stem. unfold create_output_file_name.
    simpl snd. unfold join. rewrite !fold_left_app. simpl.
    by rewrite join_step_suffix. }
  assert (Hfolder : dirname (stem +:+ "_stderr") = dirname (stem +:+ "_stdout")).
  { unfold dirname. by rewrite !dir_head_append_no_sep. }
  split_and!.
  - unfold get_log_files. fold log_folder. rewrite !Hcall by done.
    unfold outcome. simpl. rewrite Hfolder, orb_false_r.
    by destruct (is_empty (dirname (stem +:+ "_stdout"))).
  - intros Heq%(inj (String.append _)). discriminate Heq.
  - intros Hlog. apply dirname_has_sep. rewrite no_sep_append.
    apply andb_false_iff. left. subst stem.
    unfold create_output_file_name. simpl snd.
    assert (Hne : is_empty log_folder = false) by by destruct log_folder.
    rewrite Hne. unfold join. rewrite fold_left_app. simpl.
    apply join_step_has_sep. by apply (join_nonempty log_folder).
Qed.

(** With the log folder and the result path both set to the empty string
    and no significant parameter, the folder of the names is the empty
    path; with the settings left out, the logs go next to the script. *)
Example get_log_files_empty_folder :
  get_log_files (<["log_folder" := ""]> (<["result_path" := ""]> ∅))
    "/home/user/run.py" two_logs_root
  = Failed FileNotFoundError
  ∧ get_log_files ∅ "/home/user/run.py" hist_task
    = Done ([Makedirs "/home/user/logs/exp=1003/run=5";
             Makedirs "/home/user/logs/exp=1003/run=5"],
            ("/home/user/logs/exp=1003/run=5/HistTask_stdout",
             "/home/user/logs/exp=1003/run=5/HistTask_stderr")).
Proof. split; reflexivity. Qed.

(** ** More on the parameter combinator *)

Lemma iter_all_Ok (vs : list value) (pools : list (list value)) :
  iter_all vs = Ok pools ↔ Forall2 (λ v pool, iter v = Ok pool) vs pools.
Proof.
  revert pools. induction vs as [|v vs IH]; simpl; intros pools.
  - split.
    + intros [= <-]. constructor.
    + by intros ->%Forall2_nil_inv_l.
  - destruct (iter v) as [pool|e] eqn:Hv; simpl.
    + destruct (iter_all vs) as [pools'|e] eqn:Hvs; simpl.
      * split.
        -- intros [= <-]. constructor; [done|]. by apply IH.
        -- intros Hall.
           apply Forall2_cons_inv_l in Hall as (p & ps & Hp & Hps & ->).
           apply IH in Hps. congruence.
      * split; [done|]. intros Hall.
        apply Forall2_cons_inv_l in Hall as (p & ps & Hp & Hps & ->).
        apply IH in Hps. done.
    + split; [done|]. intros Hall.
      apply Forall2_cons_inv_l in Hall as (p & ps & Hp & Hps & ->).
      congruence.
Qed.

Lemma iter_all_raises (vs : list value) :
  (∃ v, v ∈ vs ∧ is_iterable v = false) ↔ iter_all vs = Raise TypeError.
Proof.
  induction vs as [|v vs IH]; simpl.
  - split; [|done]. intros (v & Hv%elem_of_nil & _). done.
  - destruct v as [|n|s|xs]; simpl.
    + split; [done|]. intros _. exists VNone. split; [left|done].
    + split; [done|]. intros _. exists (VInt n). split; [left|done].
    + destruct (iter_all vs) as [pools|[]] eqn:Hvs; simpl.
      * split; [|done].
        intros (v & [->|Hv]%elem_of_cons & Hit); [done|].
        assert (Ok pools = Raise TypeError) by (apply IH; eauto). done.
      * split; [done|]. intros _.
        destruct (proj2 IH eq_refl) as (v & Hv & Hit).
        exists v. split; [by right|done].
      * split.
        -- intros (v & [->|Hv]%elem_of_cons & Hit); [done|].
           assert (Raise KeyError = Raise TypeError) by (apply IH; eauto).
           done.
        -- done.
    + destruct (iter_all vs) as [pools|[]] eqn:Hvs; simpl.
      * split; [|done].
        intros (v & [->|Hv]%elem_of_cons & Hit); [done|].
        assert (Ok pools = Raise TypeError) by (apply IH; eauto). done.
      * split; [done|]. intros _.
        destruct (proj2 IH eq_refl) as (v & Hv & Hit).
        exists v. split; [by right|done].
      * split.
        -- intros (v & [->|Hv]%elem_of_cons & Hit); [done|].
           assert (Raise KeyError = Raise TypeError) by (apply IH; eauto).
           done.
        -- done.
Qed.

Lemma product_dict_pools (kwargs : dict value) (pools : list (list value)) :
  NoDup kwargs.*1 → iter_all kwargs.*2 = Ok pools →
  product_dict kwargs = Ok (zip kwargs.*1 <$> itertools.product pools).
Proof.
  intros Hnd Hpools. unfold product_dict. rewrite Hpools. simpl. f_equal.
  apply list_eq_Forall2, Forall2_fmap, Forall_Forall2_diag, Forall_forall.
  intros t Ht%elem_of_product.
  apply dict_of_items_nodup. rewrite fst_zip; [done|].
  apply Forall2_length in Ht. apply iter_all_Ok, Forall2_length in Hpools.
  rewrite !length_fmap in *. lia.
Qed.

(** X9: [product_dict] used on its own raises [TypeError] exactly when
    one of the values, [None] or a number, cannot be iterated, and yields
    its assignments exactly when all can; it is [fill_kwargs_with_lists]
    that rules the first case out. *)
Theorem product_dict_raises_iff (kwargs : dict value) :
  (product_dict kwargs = Raise TypeError
   ↔ ∃ v, v ∈ kwargs.*2 ∧ is_iterable v = false)
  ∧ ((∃ assignments, product_dict kwargs = Ok assignments)
     ↔ Forall (λ v, is_iterable v = true) kwargs.*2).
Proof.
  split.
  - rewrite iter_all_raises. unfold product_dict.
    destruct (iter_all kwargs.*2) as [pools|e]; simpl.
    + split; discriminate.
    + split; by intros [= ->].
  - unfold product_dict. split.
    + intros [assignments Hrun].
      destruct (iter_all kwargs.*2) as [pools|e] eqn:Hpools; [|done].
      apply iter_all_Ok in Hpools. clear Hrun.
      induction Hpools as [|v pool vs pools Hv _ IH]; constructor; [|done].
      by destruct v.
    + intros Hall. destruct (iter_all_iterable _ Hall) as (pools & -> & _).
      by eexists.
Qed.

Lemma Forall2_elem_of_pools (xs : list value) (pools : list (list value))
    (t : list value) :
  Forall2 (λ x pool, iter (listified x) = Ok pool) xs pools →
  Forall2 (∈) t pools
  ↔ Forall2 (λ v x, ∃ pool, iter (listified x) = Ok pool ∧ v ∈ pool) t xs.
Proof.
  intros Hpools. revert t.
  induction Hpools as [|x pool xs pools Hx _ IH]; intros t.
  - split; intros ->%Forall2_nil_inv_r; constructor.
  - split.
    + intros (v & t' & Hv & Ht' & ->)%Forall2_cons_inv_r.
      constructor; [by exists pool|]. by apply IH.
    + intros (v & t' & (pool' & Hpool' & Hv) & Ht' & ->)%Forall2_cons_inv_r.
      rewrite Hx in Hpool'. injection Hpool' as <-.
      constructor; [done|]. by apply IH.
Qed.

(** X10: after normalization the expansion never raises, whatever the
    constraint values are; each assignment binds the constraint names, in
    their order, and the assignments are exactly the choices of one item of
    every normalized value: an element of a list, a character of a string,
    the value itself for a number, and none at all for [None]. *)
Theorem expansion_after_normalization (kwargs : dict value) :
  NoDup kwargs.*1 →
  ∃ assignments,
    product_dict (fill_kwargs_with_lists kwargs) = Ok assignments
    ∧ ∀ a : dict value,
        a ∈ assignments ↔
        a.*1 = kwargs.*1
        ∧ Forall2 (λ v x, ∃ pool, iter (listified x) = Ok pool ∧ v ∈ pool)
            a.*2 kwargs.*2.
Proof.
  intros Hnd. rewrite fill_kwargs_with_lists_fmap by done.
  set (normalized := (λ kv : string * value, (kv.1, listified kv.2)) <$> kwargs).
  assert (Hkeys : normalized.*1 = kwargs.*1)
    by (subst normalized; by rewrite <- list_fmap_compose).
  assert (Hvals : normalized.*2 = listified <$> kwargs.*2)
    by (subst normalized; by rewrite <- !list_fmap_compose).
  destruct (iter_all_iterable normalized.*2) as (pools & Hpools & Hall).
  { rewrite Hvals. apply Forall_fmap, Forall_forall. intros v _.
    apply listified_iterable. }
  exists (zip normalized.*1 <$> itertools.product pools).
  split; [apply product_dict_pools; [by rewrite Hkeys|done]|].
  rewrite Hvals in Hall. apply Forall2_fmap_l in Hall.
  intros a. rewrite list_elem_of_fmap, Hkeys.
  pose proof (Forall2_length _ _ _ Hall) as Hlen. rewrite length_fmap in Hlen.
  split.
  - intros (t & -> & Ht%elem_of_product).
    pose proof (Forall2_length _ _ _ Ht) as Hlen'.
    rewrite fst_zip, snd_zip by (rewrite ?length_fmap; lia).
    split; [done|].
    by apply (Forall2_elem_of_pools _ pools).
  - intros [Ha Hchoice]. exists a.*2. split.
    + by rewrite <- Ha, zip_fst_snd.
    + by apply elem_of_product, (Forall2_elem_of_pools kwargs.*2).
Qed.

Lemma expansion_after_normalization_witness :
  NoDup none_constraints.*1
  ∧ ∃ assignments,
      product_dict (fill_kwargs_with_lists none_constraints) = Ok assignments
      ∧ ∀ a : dict value,
          a ∈ assignments ↔
          a.*1 = none_constraints.*1
          ∧ Forall2 (λ v x, ∃ pool, iter (listified x) = Ok pool ∧ v ∈ pool)
              a.*2 none_constraints.*2.
Proof.
  assert (Hnd : NoDup none_constraints.*1) by decide_true.
  split; [exact Hnd|].
  exact (expansion_after_normalization none_constraints Hnd).
Defined.

Lemma product_singletons {A} (l : list A) :
  itertools.product ((λ x, [x]) <$> l) = [l].
Proof. induction l as [|x l IH]; csimpl; [done|]. by rewrite IH. Qed.

(** X11: a constraint set whose values are all numbers or one-character
    strings expands to exactly one assignment, the constraint set itself. *)
Theorem scalar_constraints_expand_to_themselves (kwargs : dict value) :
  NoDup kwargs.*1 →
  Forall (λ v, (∃ n, v = VInt n) ∨ (∃ c, v = VStr (String c ""))) kwargs.*2 →
  product_dict (fill_kwargs_with_lists kwargs) = Ok [kwargs].
Proof.
  intros Hnd Hscalar. rewrite fill_kwargs_with_lists_fmap by done.
  set (normalized := (λ kv : string * value, (kv.1, listified kv.2)) <$> kwargs).
  assert (Hkeys : normalized.*1 = kwargs.*1)
    by (subst normalized; by rewrite <- list_fmap_compose).
  assert (Hvals : normalized.*2 = listified <$> kwargs.*2)
    by (subst normalized; by rewrite <- !list_fmap_compose).
  rewrite (product_dict_pools _ ((λ v, [v]) <$> kwargs.*2)).
  - rewrite product_singletons, Hkeys. simpl. by rewrite zip_fst_snd.
  - by rewrite Hkeys.
  - rewrite Hvals. clear Hnd Hkeys Hvals normalized.
    induction Hscalar as [|v vs Hv _ IH]; csimpl; [done|].
    rewrite IH. by destruct Hv as [[n ->]|[c ->]].
Qed.

Lemma scalar_constraints_expand_to_themselves_witness :
  NoDup ["exp"; "run"]
  ∧ product_dict
      (fill_kwargs_with_lists [("exp", VInt 1003); ("run", VStr "5")])
    = Ok [[("exp", VInt 1003); ("run", VStr "5")]].
Proof.
  assert (Hnd : NoDup ["exp"; "run"]) by decide_true.
  split; [exact Hnd|].
  apply (scalar_constraints_expand_to_themselves
           [("exp", VInt 1003); ("run", VStr "5")] Hnd).
  simpl. constructor; [left; by eexists|].
  constructor; [right; by eexists|]. constructor.
Defined.

(** ** More on the filter engine *)

Lemma filter_loop_no_match (assignments : list (dict value))
    (output_files : list OutputRecord) :
  (∀ kwargs r, kwargs ∈ assignments → r ∈ output_files →
     not_use kwargs (parameters r) = true) →
  filter_loop assignments output_files = Ok [].
Proof.
  unfold filter_loop. generalize (@nil OutputRecord) as acc.
  induction assignments as [|kwargs assignments IH]; simpl; intros acc Hnone;
    [done|].
  assert (Hinner : ∀ rs, rs ⊆ output_files →
            for_each rs
              (λ file_names r,
                 if not_use kwargs (parameters r) then Ok file_names
                 else set_add r file_names) acc = Ok acc).
  { induction rs as [|r rs IHrs]; simpl; intros Hsub; [done|].
    rewrite (Hnone kwargs r); [|left|apply Hsub; left]. simpl.
    apply IHrs. intros x Hx. apply Hsub. by right. }
  rewrite Hinner by done. simpl. apply IH.
  intros a r Ha. apply Hnone. by right.
Qed.

Lemma product_dict_fill_Ok (kwargs : dict value) :
  NoDup kwargs.*1 →
  ∃ assignments, product_dict (fill_kwargs_with_lists kwargs) = Ok assignments.
Proof.
  intros Hnd. unfold product_dict.
  destruct (iter_all_iterable (fill_kwargs_with_lists kwargs).*2)
    as (pools & -> & _); [|by eexists].
  rewrite fill_kwargs_with_lists_fmap by done.
  rewrite <- list_fmap_compose. apply Forall_fmap, Forall_forall.
  intros [k v] _. apply listified_iterable.
Qed.

(** X12: for a non-empty constraint mapping [filter_from_params] has two
    outcomes: the empty list, when no record is consistent with any
    expanded assignment, and [TypeError], as soon as one is. *)
Theorem filter_from_params_outcome (output_files : list OutputRecord)
    (kwargs : dict value) :
  kwargs ≠ [] → NoDup kwargs.*1 →
  ∃ assignments,
    product_dict (fill_kwargs_with_lists kwargs) = Ok assignments
    ∧ ((∀ a r, a ∈ assignments → r ∈ output_files →
          not_use a (parameters r) = true) →
       filter_from_params output_files kwargs = Ok [])
    ∧ (∀ a r, a ∈ assignments → r ∈ output_files →
         not_use a (parameters r) = false →
         filter_from_params output_files kwargs = Raise TypeError).
Proof.
  intros Hne Hnd. destruct (product_dict_fill_Ok kwargs Hnd) as [assignments Ha].
  exists assignments. split; [done|].
  unfold filter_from_params.
  rewrite fill_kwargs_with_lists_nil_inv, Ha by done. simpl. split.
  - intros Hnone. by rewrite filter_loop_no_match.
  - intros a r Hin Hr Huse. by rewrite (filter_loop_raises _ _ a r).
Qed.

Lemma filter_from_params_outcome_witness :
  [("run", VStr "1")] ≠ ([] : dict value)
  ∧ NoDup ["run"]
  ∧ filter_from_params [log_record "2"] [("run", VStr "1")] = Ok []
  ∧ filter_from_params [log_record "2"; log_record "1"] [("run", VStr "1")]
    = Raise TypeError.
Proof.
  assert (Hne : [("run", VStr "1")] ≠ ([] : dict value)) by discriminate.
  assert (Hnd : NoDup ["run"]) by decide_true.
  split_and!; [exact Hne|exact Hnd| |].
  - destruct (filter_from_params_outcome [log_record "2"]
                [("run", VStr "1")] Hne Hnd)
      as (assignments & Ha & Hnone & _).
    apply Hnone. injection Ha as <-.
    intros a r ->%list_elem_of_singleton ->%list_elem_of_singleton.
    reflexivity.
  - destruct (filter_from_params_outcome [log_record "2"; log_record "1"]
                [("run", VStr "1")] Hne Hnd)
      as (assignments & Ha & _ & Hsome).
    injection Ha as <-.
    apply (Hsome [("run", VStr "1")] (log_record "1"));
      [elem_of_items|elem_of_items|reflexivity].
Defined.

Lemma chars_one_character (s : string) (c : value) :
  c ∈ chars s → ∃ ch, c = VStr (String ch "").
Proof.
  induction s as [|ch s IH]; simpl.
  - by intros ?%elem_of_nil.
  - intros [->|Hc]%elem_of_cons; [by exists ch|by apply IH].
Qed.

(** X13: a string given as a single constraint value is compared character
    by character: when every record has the constrained parameter with a
    value that is not one character long, no record is selected, not even
    one whose value is the very string given. *)
Theorem filter_string_constraint_selects_nothing (key s : string)
    (output_files : list OutputRecord) :
  (∀ r, r ∈ output_files →
     ∃ p, dict_get key (parameters r) = Some p ∧ String.length p ≠ 1) →
  filter_from_params output_files [(key, VStr s)] = Ok [].
Proof.
  intros Hlong. unfold filter_from_params.
  change (fill_kwargs_with_lists [(key, VStr s)]) with [(key, VStr s)].
  cbv [dict_is_empty].
  assert (Hprod : product_dict [(key, VStr s)]
                  = Ok ((λ c, [(key, c)]) <$> chars s)).
  { unfold product_dict. simpl. f_equal.
    induction (chars s) as [|c cs IH]; simpl; [done|]. by rewrite IH. }
  rewrite Hprod. simpl. rewrite filter_loop_no_match; [done|].
  intros a r (c & -> & [ch ->]%chars_one_character)%list_elem_of_fmap Hr.
  destruct (Hlong r Hr) as (p & Hp & Hlen). simpl. rewrite Hp.
  destruct (neb (VStr p) (VStr (String ch ""))) eqn:Hneb; [done|].
  apply neb_false in Hneb. injection Hneb as ->. done.
Qed.

Lemma filter_string_constraint_selects_nothing_witness :
  (∀ r, r ∈ [log_record "10"; log_record "11"] →
     ∃ p, dict_get "run" (parameters r) = Some p ∧ String.length p ≠ 1)
  ∧ filter_from_params [log_record "10"; log_record "11"]
      [("run", VStr "10")] = Ok [].
Proof.
  assert (Hlong : ∀ r, r ∈ [log_record "10"; log_record "11"] →
            ∃ p, dict_get "run" (parameters r) = Some p
                 ∧ String.length p ≠ 1).
  { intros r Hr.
    repeat (apply elem_of_cons in Hr as [->|Hr];
            [eexists; split; [reflexivity|discriminate]|]).
    by apply elem_of_nil in Hr. }
  split; [exact Hlong|].
  exact (filter_string_constraint_selects_nothing "run" "10" _ Hlong).
Defined.

Lemma dict_get_Some_elem {V} (key : string) (v : V) (d : dict V) :
  dict_get key d = Some v → (key, v) ∈ d.
Proof.
  induction d as [|[k w] d IH]; simpl; [done|].
  destruct (String.eqb_spec k key) as [->|_].
  - intros [= ->]. left.
  - intros Hd. right. by apply IH.
Qed.

(** X14: the match rule of the filter: an assignment passes a record
    exactly when every key the two share is bound, in the assignment, to
    the record's serialized value; keys of the assignment that the record
    lacks, and parameters that the assignment does not name, play no part. *)
Theorem not_use_match_rule (assignment : dict value)
    (parameters : dict string) :
  NoDup assignment.*1 →
  not_use assignment parameters = false
  ↔ ∀ key v p,
      dict_get key assignment = Some v → dict_get key parameters = Some p →
      v = VStr p.
Proof.
  intros Hnd. rewrite not_use_false_iff. split.
  - intros Hall key v p Hv%dict_get_Some_elem Hp. symmetry. by apply (Hall key).
  - intros Hall key v p Hin Hp. symmetry. apply (Hall key); [|done].
    by apply dict_get_elem.
Qed.

Lemma not_use_match_rule_witness :
  NoDup ["z"; "x"]
  ∧ not_use [("z", VStr "9"); ("x", VStr "1")] [("x", "1"); ("y", "3")] = false.
Proof.
  assert (Hnd : NoDup ["z"; "x"]) by decide_true.
  split; [exact Hnd|].
  apply (not_use_match_rule [("z", VStr "9"); ("x", VStr "1")]
           [("x", "1"); ("y", "3")] Hnd).
  intros key v p Hv%dict_get_Some_elem Hp%dict_get_Some_elem.
  repeat (apply elem_of_cons in Hv as [Hv|Hv]; [injection Hv as -> ->|]);
    [..|by apply elem_of_nil in Hv];
    repeat (apply elem_of_cons in Hp as [Hp|Hp];
            [first [discriminate Hp|injection Hp as <-; reflexivity]|]);
    by apply elem_of_nil in Hp.
Defined.

(** ** The flattening helpers *)

Lemma obj_ind (P : obj → Prop) :
  (∀ a, P (Atom a)) →
  (∀ xs, Forall P xs → P (OList xs)) →
  (∀ items, Forall (λ kv, P kv.2) items → P (ODict items)) →
  ∀ o, P o.
Proof.
  intros HAtom HList HDict. fix IH 1. intros [a|xs|items].
  - exact (HAtom a).
  - apply HList. induction xs as [|x xs IHxs]; constructor.
    + exact (IH x).
    + exact IHxs.
  - apply HDict. induction items as [|[k v] items IHitems]; constructor.
    + exact (IH v).
    + exact IHitems.
Qed.

Lemma _flatten_leaf (o : obj) :
  (∀ xs, o ≠ OList xs) → _flatten o = [o].
Proof. destruct o as [[]|xs|items]; try done. intros Hne. by destruct (Hne xs). Qed.

Lemma _flatten_leaves (struct : obj) :
  Forall (λ leaf, ∀ xs, leaf ≠ OList xs) (_flatten struct).
Proof.
  induction struct as [a|xs IH|items _] using obj_ind.
  - destruct a; by repeat constructor.
  - simpl. induction IH as [|x xs Hx _ IHxs]; simpl; [constructor|].
    by apply Forall_app.
  - by repeat constructor.
Qed.

(** X15: [_flatten] returns leaves only, no list is left among its items,
    whatever the nesting; so flattening what it returns changes nothing,
    and a structure made of lists alone flattens to nothing. *)
Theorem flatten_leaves_idempotent (struct : obj) :
  Forall (λ leaf, ∀ xs, leaf ≠ OList xs) (_flatten struct)
  ∧ _flatten (OList (_flatten struct)) = _flatten struct
  ∧ (_flatten struct = [] → ∃ xs, struct = OList xs).
Proof.
  split; [apply _flatten_leaves|]. split.
  - simpl. induction (_flatten_leaves struct) as [|leaf leaves Hleaf _ IH];
      simpl; [done|].
    by rewrite IH, _flatten_leaf.
  - destruct struct as [[]|xs|items]; try done. by exists xs.
Qed.

Lemma dict_get_set {V} (key key' : string) (v : V) (d : dict V) :
  dict_get key (dict_set key' v d)
  = if String.eqb key' key then Some v else dict_get key d.
Proof.
  induction d as [|[k w] d IH]; simpl.
  - by destruct (String.eqb key' key).
  - destruct (String.eqb_spec k key') as [->|Hne]; simpl.
    + by destruct (String.eqb key' key).
    + rewrite IH. destruct (String.eqb_spec k key) as [->|_]; [|done].
      by destruct (String.eqb_spec key' key) as [->|_].
Qed.

(** [update] lets the new binding of a key win and keeps the others. *)
Lemma dict_get_update {V} (key : string) (joined_dict kw : dict V) :
  NoDup kw.*1 →
  dict_get key (dict_update joined_dict kw)
  = match dict_get key kw with
    | Some v => Some v
    | None => dict_get key joined_dict
    end.
Proof.
  unfold dict_update. revert joined_dict.
  induction kw as [|[k v] kw IH]; simpl; intros joined_dict Hnd; [done|].
  apply NoDup_cons in Hnd as [Hk Hnd]. rewrite IH by done.
  rewrite dict_get_set.
  destruct (String.eqb_spec k key) as [->|_]; [|done].
  apply dict_get_None in Hk. by rewrite Hk.
Qed.

Lemma keywords_str_items (d : dict obj) :
  keywords ((λ kv, (AStr kv.1, kv.2)) <$> d) = Ok d.
Proof.
  induction d as [|[k v] d IH]; csimpl; [done|]. by rewrite IH.
Qed.

Lemma keywords_cases (i : list (atom * obj)) :
  if forallb (λ kv, match kv.1 with AStr _ => true | _ => false end) i
  then ∃ kw, keywords i = Ok kw
  else keywords i = Raise TypeError.
Proof.
  induction i as [|[k v] i IH]; simpl; [by eexists|].
  destruct k as [|n|s|id path]; simpl; try done.
  destruct (forallb _ i); [destruct IH as [kw ->]; by eexists|].
  by rewrite IH.
Qed.

Lemma flatten_to_dict_leaf_cases (joined_dict : dict obj) (leaf : obj) :
  (∀ xs, leaf ≠ OList xs) →
  if string_keyed leaf
  then ∃ kw,
      bind (_to_dict leaf) (λ i,
        bind (keywords i) (λ kw, Ok (dict_update joined_dict kw)))
      = Ok (dict_update joined_dict kw)
  else bind (_to_dict leaf) (λ i,
         bind (keywords i) (λ kw, Ok (dict_update joined_dict kw)))
       = Raise TypeError.
Proof.
  intros Hleaf.
  destruct leaf as [a|xs|items]; [|exfalso; by apply (Hleaf xs)|].
  - destruct a as [|n|s|id path]; try done. by exists [(s, Atom (AStr s))].
  - simpl. pose proof (keywords_cases items) as Hkw.
    destruct (forallb _ items); [destruct Hkw as [kw ->]; by exists kw|].
    by rewrite Hkw.
Qed.

Lemma flatten_to_dict_loop_cases (leaves : list obj) (acc : dict obj) :
  Forall (λ leaf, ∀ xs, leaf ≠ OList xs) leaves →
  (Forall (λ leaf, string_keyed leaf = true) leaves →
   ∃ d, for_each (map _to_dict leaves)
          (λ joined_dict i,
             bind i (λ i,
             bind (keywords i) (λ kw, Ok (dict_update joined_dict kw))))
          acc = Ok d)
  ∧ (Exists (λ leaf, string_keyed leaf = false) leaves →
     for_each (map _to_dict leaves)
       (λ joined_dict i,
          bind i (λ i,
          bind (keywords i) (λ kw, Ok (dict_update joined_dict kw))))
       acc = Raise TypeError).
Proof.
  intros Hleaves. revert acc.
  induction Hleaves as [|leaf leaves Hleaf _ IH]; simpl; intros acc.
  - split; [by eexists|]. by intros ?%Exists_nil.
  - pose proof (flatten_to_dict_leaf_cases acc leaf Hleaf) as Hcase.
    destruct (string_keyed leaf) eqn:Hkeyed.
    + destruct Hcase as [kw ->]. simpl. split.
      * intros [_ Hrest]%Forall_cons. by apply IH.
      * intros [Hhere|Hrest]%Exists_cons; [congruence|]. by apply IH.
    + rewrite Hcase. simpl. split; [|done].
      intros [Hhere _]%Forall_cons. congruence.
Qed.

Lemma Forall_or_Exists_false {A} (f : A → bool) (l : list A) :
  Forall (λ x, f x = true) l ∨ Exists (λ x, f x = false) l.
Proof.
  induction l as [|x l [IH|IH]].
  - left. constructor.
  - destruct (f x) eqn:Hx; [left; by constructor|right; by left].
  - right. by right.
Qed.

(** X16: [flatten_to_dict] returns a dictionary when every leaf of the
    structure is a string or a dictionary with string keys only, and raises
    [TypeError] otherwise: a number, [None], a target outside a dictionary,
    or one key that is not a string, is enough. *)
Theorem flatten_to_dict_outcome (inputs : obj) :
  ((∃ d, flatten_to_dict inputs = Ok d)
   ↔ Forall (λ leaf, string_keyed leaf = true) (_flatten inputs))
  ∧ (flatten_to_dict inputs = Raise TypeError
     ↔ Exists (λ leaf, string_keyed leaf = false) (_flatten inputs)).
Proof.
  unfold flatten_to_dict.
  destruct (flatten_to_dict_loop_cases (_flatten inputs) []
              (_flatten_leaves inputs)) as [HOk HRaise].
  destruct (Forall_or_Exists_false string_keyed (_flatten inputs))
    as [Hall|Hsome].
  - destruct (HOk Hall) as [d Hd]. rewrite Hd. split.
    + split; [done|by eexists].
    + split; [done|]. intros Hsome.
      apply Exists_exists in Hsome as (leaf & Hin & Hfalse).
      rewrite Forall_forall in Hall. specialize (Hall leaf Hin). congruence.
  - rewrite (HRaise Hsome). split.
    + split; [by intros [d ?]|]. intros Hall.
      apply Exists_exists in Hsome as (leaf & Hin & Hfalse).
      rewrite Forall_forall in Hall. specialize (Hall leaf Hin). congruence.
    + done.
Qed.

(** X17: a dictionary with string keys is flattened to itself, entries in
    their order. *)
Theorem flatten_to_dict_of_dict (d : dict obj) :
  NoDup d.*1 → flatten_to_dict (str_dict d) = Ok d.
Proof.
  intros Hnd. unfold flatten_to_dict, str_dict. simpl.
  rewrite keywords_str_items. simpl. f_equal.
  by apply (dict_of_items_nodup d).
Qed.

Lemma flatten_to_dict_of_dict_witness :
  NoDup ["a"; "b"]
  ∧ flatten_to_dict (str_dict [("a", Atom (AInt 1)); ("b", Atom (AInt 2))])
    = Ok [("a", Atom (AInt 1)); ("b", Atom (AInt 2))].
Proof.
  assert (Hnd : NoDup ["a"; "b"]) by decide_true.
  split; [exact Hnd|].
  exact (flatten_to_dict_of_dict
           [("a", Atom (AInt 1)); ("b", Atom (AInt 2))] Hnd).
Defined.

Lemma _flatten_str_dicts (ds : list (dict obj)) :
  flat_map _flatten (str_dict <$> ds) = str_dict <$> ds.
Proof. induction ds as [|d ds IH]; csimpl; [done|]. by rewrite IH. Qed.

(** X18: of a list of dictionaries with string keys, [flatten_to_dict]
    returns the merge in which, for every key, the last dictionary that has
    it decides the value. *)
Theorem flatten_to_dict_last_wins (ds : list (dict obj)) :
  Forall (λ d, NoDup d.*1) ds →
  ∃ joined_dict,
    flatten_to_dict (OList (str_dict <$> ds)) = Ok joined_dict
    ∧ ∀ key,
        dict_get key joined_dict
        = foldl (λ found d, match dict_get key d with
                            | Some v => Some v
                            | None => found
                            end) None ds.
Proof.
  intros Hnd. unfold flatten_to_dict. simpl. rewrite _flatten_str_dicts.
  change (∃ joined_dict,
    for_each (map _to_dict (str_dict <$> ds))
      (λ joined_dict i,
         bind i (λ i,
         bind (keywords i) (λ kw, Ok (dict_update joined_dict kw))))
      [] = Ok joined_dict
    ∧ ∀ key,
        dict_get key joined_dict
        = foldl (λ found d, match dict_get key d with
                            | Some v => Some v
                            | None => found
                            end) (dict_get key (@nil (string * obj))) ds).
  generalize (@nil (string * obj)) as acc.
  induction Hnd as [|d ds Hd _ IH]; csimpl; intros acc.
  - by eexists.
  - rewrite keywords_str_items. simpl.
    destruct (IH (dict_update acc d)) as (joined_dict & -> & Hget).
    exists joined_dict. split; [done|]. intros key.
    by rewrite Hget, dict_get_update.
Qed.

Lemma flatten_to_dict_last_wins_witness :
  Forall (λ d : dict obj, NoDup d.*1)
    [[("a", Atom (AInt 1)); ("b", Atom (AInt 2))]; [("a", Atom (AInt 3))]]
  ∧ flatten_to_dict
      (OList [str_dict [("a", Atom (AInt 1)); ("b", Atom (AInt 2))];
              str_dict [("a", Atom (AInt 3))]])
    = Ok [("a", Atom (AInt 3)); ("b", Atom (AInt 2))].
Proof.
  assert (Hnd : Forall (λ d : dict obj, NoDup d.*1)
            [[("a", Atom (AInt 1)); ("b", Atom (AInt 2))];
             [("a", Atom (AInt 3))]]).
  { repeat (constructor; [decide_true|]). constructor. }
  split; [exact Hnd|].
  destruct (flatten_to_dict_last_wins _ Hnd) as (joined_dict & Hrun & Hget).
  transitivity (Ok joined_dict); [exact Hrun|].
  vm_compute in Hrun. by injection Hrun as <-.
Defined.

Lemma adict_get_set {V} (key key' : atom) (v : V) (d : list (atom * V)) :
  adict_get key (adict_set key' v d)
  = if bool_decide (key' = key) then Some v else adict_get key d.
Proof.
  induction d as [|[k w] d IH]; simpl; [done|].
  destruct (decide (k = key')) as [->|Hne].
  - rewrite bool_decide_eq_true_2 by done. simpl.
    by destruct (bool_decide (key' = key)).
  - rewrite bool_decide_eq_false_2 by done. simpl. rewrite IH.
    destruct (decide (k = key)) as [->|Hne'].
    + rewrite bool_decide_eq_true_2 by done.
      by rewrite bool_decide_eq_false_2 by done.
    + by rewrite (bool_decide_eq_false_2 (k = key)) by done.
Qed.

Lemma adict_get_None {V} (key : atom) (d : list (atom * V)) :
  key ∉ d.*1 → adict_get key d = None.
Proof.
  induction d as [|[k w] d IH]; simpl; [done|].
  intros [Hne Hk]%not_elem_of_cons.
  rewrite bool_decide_eq_false_2 by done. by apply IH.
Qed.

Lemma defaultdict_append_value_fold (key : atom) (i : list (atom * obj))
    (acc : list (atom * list obj)) :
  NoDup i.*1 →
  default [] (adict_get key
    (fold_left (λ d kv, defaultdict_append_value d kv.1 kv.2) i acc))
  = default [] (adict_get key acc)
    ++ match adict_get key i with
       | Some v => [v]
       | None => []
       end.
Proof.
  revert acc. induction i as [|[k v] i IH]; simpl; intros acc Hnd.
  - by rewrite app_nil_r.
  - apply NoDup_cons in Hnd as [Hk Hnd]. rewrite IH by done.
    unfold defaultdict_append_value. rewrite adict_get_set.
    destruct (decide (k = key)) as [->|Hne].
    + rewrite !bool_decide_eq_true_2 by done.
      rewrite (adict_get_None key i) by done. simpl.
      by rewrite <- app_assoc.
    + by rewrite !bool_decide_eq_false_2 by done.
Qed.

(** X19: [flatten_to_list_of_dicts] never raises, and the list it holds
    for a key is made of the values that the leaves of the structure have
    for that key, one per leaf, in the order of the leaves; a leaf that is
    not a dictionary counts as the dictionary from itself to itself. *)
Theorem flatten_to_list_of_dicts_collects (inputs : obj) :
  (∀ items, ODict items ∈ _flatten inputs → NoDup items.*1) →
  ∃ joined_dict,
    flatten_to_list_of_dicts inputs = Ok joined_dict
    ∧ ∀ key,
        default [] (adict_get key joined_dict)
        = omap (leaf_get key) (_flatten inputs).
Proof.
  intros Hnd. unfold flatten_to_list_of_dicts.
  pose proof (_flatten_leaves inputs) as Hleaves.
  change (∃ joined_dict,
    for_each (map _to_dict (_flatten inputs))
      (λ joined_dict i,
         bind i (λ i,
         Ok (fold_left (λ d kv, defaultdict_append_value d kv.1 kv.2)
                       i joined_dict)))
      [] = Ok joined_dict
    ∧ ∀ key,
        default [] (adict_get key joined_dict)
        = default [] (adict_get key (@nil (atom * list obj)))
          ++ omap (leaf_get key) (_flatten inputs)).
  generalize (@nil (atom * list obj)) as acc.
  induction Hleaves as [|leaf leaves Hleaf _ IH]; simpl; intros acc.
  - exists acc. split; [done|]. intros key. by rewrite app_nil_r.
  - assert (Hleafdict : ∃ i, _to_dict leaf = Ok i ∧ NoDup i.*1).
    { destruct leaf as [a|xs|items].
      - eexists. split; [done|]. apply NoDup_singleton.
      - by destruct (Hleaf xs).
      - exists items. split; [done|]. apply Hnd. left. }
    destruct Hleafdict as (i & Hi & Hnodup). rewrite Hi. simpl.
    destruct (IH (λ items Hin, Hnd items (list_elem_of_further _ _ _ Hin))
                (fold_left (λ d kv, defaultdict_append_value d kv.1 kv.2)
                           i acc))
      as (joined_dict & -> & Hget).
    exists joined_dict. split; [done|]. intros key.
    rewrite Hget, defaultdict_append_value_fold by done.
    rewrite <- app_assoc. f_equal. unfold leaf_get at 2. rewrite Hi.
    by destruct (adict_get key i).
Qed.

Lemma flatten_to_list_of_dicts_collects_witness :
  (∀ items,
     ODict items
     ∈ _flatten (OList [ODict [(AStr "a", Atom (AInt 1))];
                        OList [ODict [(AStr "a", Atom (AInt 2))];
                               Atom (AStr "a")]]) →
     NoDup items.*1)
  ∧ flatten_to_list_of_dicts
      (OList [ODict [(AStr "a", Atom (AInt 1))];
              OList [ODict [(AStr "a", Atom (AInt 2))]; Atom (AStr "a")]])
    = Ok [(AStr "a", [Atom (AInt 1); Atom (AInt 2); Atom (AStr "a")])].
Proof.
  assert (Hnd : ∀ items,
     ODict items
     ∈ _flatten (OList [ODict [(AStr "a", Atom (AInt 1))];
                        OList [ODict [(AStr "a", Atom (AInt 2))];
                               Atom (AStr "a")]]) →
     NoDup items.*1).
  { intros items Hin. simpl in Hin.
    repeat (apply elem_of_cons in Hin as [Hin|Hin];
            [first [discriminate Hin
                   |injection Hin as ->; apply NoDup_singleton]|]).
    by apply elem_of_nil in Hin. }
  split; [exact Hnd|].
  destruct (flatten_to_list_of_dicts_collects _ Hnd)
    as (joined_dict & Hrun & _).
  transitivity (Ok joined_dict); [exact Hrun|].
  vm_compute in Hrun. by injection Hrun as <-.
Defined.

Lemma flatten_to_file_paths_dict (items : list (atom * obj)) :
  items ≠ [] →
  flatten_to_file_paths (ODict items)
  = bind (file_paths_of_items items []) (λ d, Ok (ODict d)).
Proof.
  intros Hne. destruct items as [|kv items]; [done|].
  cbn [flatten_to_file_paths falsy].
  rewrite bool_decide_eq_false_2 by done.
  set (comprehension :=
         fix comprehension (items0 acc : list (atom * obj)) {struct items0}
           : result (list (atom * obj)) :=
           match items0 with
           | [] => Ok acc
           | (key0, value1) :: rest =>
               bind (basename_of (flatten_atom key0)) (λ k0,
               bind (flatten_to_file_paths value1) (λ v0,
               comprehension rest (adict_set (AStr k0) v0 acc)))
           end).
  assert (Hsame : ∀ its acc, comprehension its acc
                             = file_paths_of_items its acc).
  { induction its as [|[key value] its IH]; intros acc; simpl; [done|].
    destruct (basename_of (flatten_atom key)); simpl; [|done].
    destruct (flatten_to_file_paths value); simpl; [|done].
    apply IH. }
  destruct kv as [key value]. simpl.
  destruct (basename_of (flatten_atom key)); simpl; [|done].
  destruct (flatten_to_file_paths value); simpl; [|done].
  by rewrite Hsame.
Qed.

Lemma file_paths_of_targets (outputs : list (string * (nat * string)))
    (acc : list (atom * obj)) :
  Forall (λ o, o.1 ≠ "") outputs →
  NoDup (acc.*1 ++ ((λ o, AStr (basename o.1)) <$> outputs)) →
  file_paths_of_items
    ((λ o, (AStr o.1, Atom (ATarget o.2.1 o.2.2))) <$> outputs) acc
  = Ok (acc ++ ((λ o, (AStr (basename o.1), Atom (AStr o.2.2))) <$> outputs)).
Proof.
  intros Hnames. revert acc.
  induction Hnames as [|[name [id path]] outputs Hname _ IH]; csimpl;
    intros acc Hnd.
  - by rewrite app_nil_r.
  - assert (Hkey : flatten_atom (AStr name) = Atom (AStr name))
      by by destruct name.
    cbn [file_paths_of_items fst snd]. rewrite Hkey.
    cbn [basename_of bind flatten_to_file_paths falsy flatten_atom].
    apply NoDup_app in Hnd as (Hacc & Hdisj & Houtputs).
    apply NoDup_cons in Houtputs as [Hfresh Houtputs].
    assert (Hset : adict_set (AStr (basename name)) (Atom (AStr path)) acc
                   = acc ++ [(AStr (basename name), Atom (AStr path))]).
    { assert (Hnotin : AStr (basename name) ∉ acc.*1).
      { intros Hin. apply (Hdisj _ Hin). left. }
      clear -Hnotin. induction acc as [|[k w] acc IHacc]; simpl; [done|].
      simpl in Hnotin. apply not_elem_of_cons in Hnotin as [Hne Hnotin].
      rewrite bool_decide_eq_false_2 by done. by rewrite IHacc. }
    rewrite Hset, IH.
    + by rewrite <- app_assoc.
    + rewrite fmap_app, <- app_assoc. simpl.
      apply NoDup_app. split_and!; [done| |by apply NoDup_cons].
      intros k Hk. by apply Hdisj in Hk.
Qed.

(** X20: of a dictionary from names to targets, as a task declares its
    outputs, [flatten_to_file_paths] returns the dictionary from the
    basename of each name to the path of its target, in the same order,
    when no name is empty and no two names have the same basename. *)
Theorem flatten_to_file_paths_of_targets
    (outputs : list (string * (nat * string))) :
  outputs ≠ [] →
  Forall (λ o, o.1 ≠ "") outputs →
  NoDup ((λ o, basename o.1) <$> outputs) →
  flatten_to_file_paths (target_dict outputs)
  = Ok (ODict ((λ o, (AStr (basename o.1), Atom (AStr o.2.2))) <$> outputs)).
Proof.
  intros Hne Hnames Hnd. unfold target_dict.
  rewrite flatten_to_file_paths_dict by by destruct outputs.
  rewrite file_paths_of_targets; [done|done|]. simpl.
  change ((λ o : string * (nat * string), AStr (basename o.1)) <$> outputs)
    with (AStr ∘ (λ o : string * (nat * string), basename o.1) <$> outputs).
  rewrite list_fmap_compose.
  assert (Hinj : Inj (=) (=) AStr) by (by intros s1 s2 [= ->]).
  apply (NoDup_fmap_2 AStr), Hnd.
Qed.

Lemma flatten_to_file_paths_of_targets_witness :
  [("out/hist.root", (1, "/out/exp=1003/hist.root"));
   ("log.txt", (2, "/out/exp=1003/log.txt"))] ≠ []
  ∧ flatten_to_file_paths
      (target_dict [("out/hist.root", (1, "/out/exp=1003/hist.root"));
                    ("log.txt", (2, "/out/exp=1003/log.txt"))])
    = Ok (ODict [(AStr "hist.root", Atom (AStr "/out/exp=1003/hist.root"));
                 (AStr "log.txt", Atom (AStr "/out/exp=1003/log.txt"))]).
Proof.
  assert (Hne : [("out/hist.root", (1, "/out/exp=1003/hist.root"));
                 ("log.txt", (2, "/out/exp=1003/log.txt"))] ≠ [])
    by discriminate.
  split; [exact Hne|].
  apply (flatten_to_file_paths_of_targets _ Hne).
  - repeat (constructor; [discriminate|]). constructor.
  - decide_true.
Defined.

Lemma basename_of_exn (p : obj) (e : exn) :
  basename_of p = Raise e → e = TypeError.
Proof. destruct p as [[]| |]; simpl; congruence. Qed.

Lemma file_paths_of_items_exn (items acc : list (atom * obj)) (e : exn) :
  Forall (λ kv, ∀ e, flatten_to_file_paths kv.2 = Raise e → e = TypeError)
    items →
  file_paths_of_items items acc = Raise e → e = TypeError.
Proof.
  intros Hvalues. revert acc.
  induction Hvalues as [|[key value] items Hvalue _ IH]; simpl; intros acc;
    [done|].
  destruct (basename_of (flatten_atom key)) as [k|e1] eqn:Hk; simpl.
  - destruct (flatten_to_file_paths value) as [v|e2] eqn:Hv; simpl.
    + apply IH.
    + intros [= <-]. by apply Hvalue.
  - intros [= <-]. by apply basename_of_exn in Hk.
Qed.

Lemma flatten_to_file_paths_exn (inputs : obj) (e : exn) :
  flatten_to_file_paths inputs = Raise e → e = TypeError.
Proof.
  revert e. induction inputs as [a|xs _|items IH] using obj_ind; intros e.
  - destruct a as [|n|[|c s]|id path]; simpl; try done.
    by destruct (Z.eqb n 0).
  - simpl. by destruct (bool_decide (xs = [])).
  - destruct items as [|kv items]; [done|].
    rewrite flatten_to_file_paths_dict by done.
    destruct (file_paths_of_items (kv :: items) []) as [d|e'] eqn:Hitems;
      simpl; [done|].
    intros [= <-]. by apply file_paths_of_items_exn in Hitems.
Qed.

(** X21: a dictionary with a key that is [None], the empty string or a
    number cannot be flattened to file paths: wherever the key stands and
    whatever the values are, [flatten_to_file_paths] raises [TypeError]. *)
Theorem flatten_to_file_paths_bad_key (items : list (atom * obj))
    (key : atom) (value : obj) :
  (key, value) ∈ items →
  key = ANone ∨ key = AStr "" ∨ (∃ n, key = AInt n) →
  flatten_to_file_paths (ODict items) = Raise TypeError.
Proof.
  intros Hin Hbad.
  assert (Hkey : basename_of (flatten_atom key) = Raise TypeError).
  { destruct Hbad as [->|[->|[n ->]]]; try done.
    unfold flatten_atom. simpl. by destruct (Z.eqb n 0). }
  rewrite flatten_to_file_paths_dict by (intros ->; by apply elem_of_nil in Hin).
  assert (Hitems : ∀ acc, file_paths_of_items items acc = Raise TypeError).
  { clear Hbad. induction items as [|[k' v'] items IH]; intros acc;
      [by apply elem_of_nil in Hin|].
    cbn [file_paths_of_items].
    apply elem_of_cons in Hin as [Heq|Hin].
    - injection Heq as <- <-. by rewrite Hkey.
    - destruct (basename_of (flatten_atom k')) as [kb|e1] eqn:Hk; simpl.
      + destruct (flatten_to_file_paths v') as [vb|e2] eqn:Hv; simpl.
        * by apply IH.
        * by apply flatten_to_file_paths_exn in Hv as ->.
      + by apply basename_of_exn in Hk as ->. }
  by rewrite Hitems.
Qed.

Lemma flatten_to_file_paths_bad_key_witness :
  (AStr "", Atom (ATarget 2 "/out/b.root"))
  ∈ [(AStr "a.root", Atom (ATarget 1 "/out/a.root"));
     (AStr "", Atom (ATarget 2 "/out/b.root"))]
  ∧ flatten_to_file_paths
      (ODict [(AStr "a.root", Atom (ATarget 1 "/out/a.root"));
              (AStr "", Atom (ATarget 2 "/out/b.root"))])
    = Raise TypeError.
Proof.
  assert (Hin : (AStr "", Atom (ATarget 2 "/out/b.root"))
                ∈ [(AStr "a.root", Atom (ATarget 1 "/out/a.root"));
                   (AStr "", Atom (ATarget 2 "/out/b.root"))])
    by elem_of_items.
  split; [exact Hin|].
  apply (flatten_to_file_paths_bad_key _ _ _ Hin). right. by left.
Defined.
